(** * Mono export signature generator: a shallow embedding

    Embedding of [scripts/generate_mono_signatures.py]: comment stripping,
    enum discovery, declaration scanning, signature parsing, type
    normalisation and classification, and the registry builder.

    Text is a list of characters.  A character is a code point below 256
    and is classified the way Python classifies that code point
    ([str.isspace], [str.isdigit], [str.lower], the [\s], [\w] and [\b] of
    [re] on [str] patterns). *)

From Stdlib Require Import Ascii String List Bool Arith NArith ZArith Lia Sorted.
Import ListNotations.

Local Open Scope bool_scope.
Local Open Scope list_scope.

(** ** Characters *)

Definition text := list ascii.

Definition txt (s : string) : text := list_ascii_of_string s.

Definition code (c : ascii) : N := N_of_ascii c.

Definition between (lo hi : N) (c : ascii) : bool :=
  (lo <=? code c)%N && (code c <=? hi)%N.

Definition has_code (n : N) (c : ascii) : bool := (code c =? n)%N.

(** [str.isspace] and the [\s] of [re]: TAB..CR, FS..US, space, NEL, NBSP. *)
Definition isspace (c : ascii) : bool :=
  between 9 13 c || between 28 32 c || has_code 133 c || has_code 160 c.

(** The decimal digits, the only characters [int()] converts. *)
Definition isdecimal (c : ascii) : bool := between 48 57 c.

(** [str.isdigit]: the decimal digits and the superscripts 2, 3 and 1. *)
Definition isdigit (c : ascii) : bool :=
  isdecimal c || has_code 178 c || has_code 179 c || has_code 185 c.

Definition isalpha (c : ascii) : bool :=
  between 65 90 c || between 97 122 c || has_code 170 c || has_code 181 c || has_code 186 c
  || between 192 214 c || between 216 246 c || between 248 255 c.

(** [\w]: alphanumeric (letters, digits, the fractions 188..190) or [_]. *)
Definition isword (c : ascii) : bool :=
  isalpha c || isdigit c || between 188 190 c || has_code 95 c.

(** [str.lower] on one character. *)
Definition lower_char (c : ascii) : ascii :=
  if between 65 90 c || between 192 214 c || between 216 222 c
  then ascii_of_N (code c + 32) else c.

Definition newline : ascii := ascii_of_N 10.

Definition any_char (_ : ascii) : bool := true.
Definition not_newline (c : ascii) : bool := negb (has_code 10 c).
Definition one_of (l : text) (c : ascii) : bool := existsb (Ascii.eqb c) l.
Definition none_of (l : text) (c : ascii) : bool := negb (one_of l c).

(** ** The fragment of [re] the script uses

    Every repetition in the script's patterns is over a single character
    class, and every pattern has at most one capture group. *)

Inductive regex : Type :=
| Str (l : text)                          (* literal characters *)
| Cls (p : ascii -> bool)                 (* one character of a class *)
| Rep (lazy plus : bool) (p : ascii -> bool)   (* p*, p+, p*?, p+? *)
| Cat (a b : regex)
| Alt (a b : regex)
| Grp (a : regex)                         (* capture group 1 *)
| Bol                                     (* ^ under re.MULTILINE *)
| Eol                                     (* $ under re.MULTILINE *)
| Eos                                     (* $ without re.MULTILINE *)
| Wordb.                                  (* \b *)

Declare Scope regex_scope.
Delimit Scope regex_scope with re.
Bind Scope regex_scope with regex.
Infix "++" := Cat (right associativity, at level 60) : regex_scope.

Definition star (p : ascii -> bool) : regex := Rep false false p.
Definition plus (p : ascii -> bool) : regex := Rep false true p.
Definition lazy_star (p : ascii -> bool) : regex := Rep true false p.

(** A position in the subject is the character before it (if any) and the
    text that remains. *)

Definition at_bol (prev : option ascii) : bool :=
  match prev with None => true | Some c => has_code 10 c end.

Definition at_eol (s : text) : bool :=
  match s with [] => true | c :: _ => has_code 10 c end.

Definition at_eos (s : text) : bool :=
  match s with [] => true | [c] => has_code 10 c | _ => false end.

Definition word_before (prev : option ascii) : bool :=
  match prev with None => false | Some c => isword c end.

Definition word_after (s : text) : bool :=
  match s with [] => false | c :: _ => isword c end.

Fixpoint literal (l : text) (prev : option ascii) (s : text)
  : option (option ascii * text) :=
  match l with
  | [] => Some (prev, s)
  | c :: l' =>
      match s with
      | d :: s' => if Ascii.eqb c d then literal l' (Some d) s' else None
      | [] => None
      end
  end.

Definition orelse {A : Type} (x y : option A) : option A :=
  match x with Some _ => x | None => y end.

Section Matcher.
Context {R : Type}.

(** Greedy repetition: take one more character first, come back to the
    continuation when that fails. *)
Fixpoint rep_greedy (p : ascii -> bool)
  (k : option ascii -> text -> option R) (prev : option ascii) (s : text)
  : option R :=
  match s with
  | c :: s' =>
      if p c then orelse (rep_greedy p k (Some c) s') (k prev s)
      else k prev s
  | [] => k prev s
  end.

(** Lazy repetition: try the continuation first, take one more character
    when that fails. *)
Fixpoint rep_lazy (p : ascii -> bool)
  (k : option ascii -> text -> option R) (prev : option ascii) (s : text)
  : option R :=
  match k prev s with
  | Some x => Some x
  | None =>
      match s with
      | c :: s' => if p c then rep_lazy p k (Some c) s' else None
      | [] => None
      end
  end.

(** The backtracking matcher, in continuation-passing style: [g] is the
    text captured by group 1 so far. *)
Fixpoint mtch (r : regex) (prev : option ascii) (s : text) (g : option text)
  (k : option ascii -> text -> option text -> option R) : option R :=
  match r with
  | Str l =>
      match literal l prev s with
      | Some (prev', s') => k prev' s' g
      | None => None
      end
  | Cls p =>
      match s with
      | c :: s' => if p c then k (Some c) s' g else None
      | [] => None
      end
  | Rep lazy plus p =>
      let loop := (if lazy then rep_lazy else rep_greedy) p
                    (fun pv t => k pv t g) in
      if plus then
        match s with
        | c :: s' => if p c then loop (Some c) s' else None
        | [] => None
        end
      else loop prev s
  | Cat a b => mtch a prev s g (fun pv t g' => mtch b pv t g' k)
  | Alt a b => orelse (mtch a prev s g k) (mtch b prev s g k)
  | Grp a =>
      mtch a prev s g
        (fun pv t _ => k pv t (Some (firstn (length s - length t) s)))
  | Bol => if at_bol prev then k prev s g else None
  | Eol => if at_eol s then k prev s g else None
  | Eos => if at_eos s then k prev s g else None
  | Wordb =>
      if xorb (word_before prev) (word_after s) then k prev s g else None
  end.
End Matcher.

(** A successful match: group 1 and the text after the match. *)
Record found : Type := { group1 : option text; rest : text }.

(** End of pattern.  A match that must advance is refused when it is
    empty (the rule [re] applies right after an empty match). *)
Definition accept (must_advance : bool) (s0 : text)
  : option ascii -> text -> option text -> option found :=
  fun _ t g =>
    if must_advance && (length t =? length s0) then None
    else Some {| group1 := g; rest := t |}.

Definition match_at (r : regex) (must_advance : bool)
  (prev : option ascii) (s : text) : option found :=
  mtch r prev s None (accept must_advance s).

Definition width (s : text) (m : found) : nat := length s - length (rest m).

(** Scanning a subject from left to right, as [sub] and [finditer] do:
    the characters outside matches and, for each match, its group 1.

    [skip] counts the characters still inside the last match.  Outside a
    match the pattern is tried at the position; a match of positive width
    is recorded and skipped; after an empty match the pattern is tried
    once more at the same position, now refusing the empty match, before
    the character there is kept. *)
Inductive piece : Type :=
| Kept (c : ascii)
| Hit (g : option text).

Fixpoint scan (r : regex) (skip : nat) (prev : option ascii) (s : text)
  : list piece :=
  match skip with
  | S n =>
      match s with
      | c :: s' => scan r n (Some c) s'
      | [] => []
      end
  | 0 =>
      match match_at r false prev s with
      | None =>
          match s with
          | c :: s' => Kept c :: scan r 0 (Some c) s'
          | [] => []
          end
      | Some m =>
          Hit (group1 m) ::
          match width s m with
          | S n =>
              match s with
              | c :: s' => scan r n (Some c) s'
              | [] => []
              end
          | 0 =>
              match match_at r true prev s with
              | Some m' =>
                  Hit (group1 m') ::
                  match s with
                  | c :: s' => scan r (width s m' - 1) (Some c) s'
                  | [] => []
                  end
              | None =>
                  match s with
                  | c :: s' => Kept c :: scan r 0 (Some c) s'
                  | [] => []
                  end
              end
          end
      end
  end.

Definition group_text (g : option text) : text :=
  match g with Some t => t | None => [] end.

(** [pattern.sub(repl, s)]: [repl] gives the replacement from group 1. *)
Definition sub (r : regex) (repl : option text -> text) (s : text) : text :=
  flat_map (fun p => match p with Kept c => [c] | Hit g => repl g end)
    (scan r 0 None s).

(** The replacement templates of the script. *)
Definition const_repl (t : string) : option text -> text := fun _ => txt t.
Definition group1_repl : option text -> text := group_text.

(** [match.group(1)] of every match of [pattern.finditer(s)]. *)
Definition finditer (r : regex) (s : text) : list text :=
  flat_map (fun p => match p with Kept _ => [] | Hit g => [group_text g] end)
    (scan r 0 None s).

(** [re.search]: the start of the leftmost match and its group 1. *)
Fixpoint search_from (r : regex) (start : nat) (prev : option ascii)
  (s : text) : option (nat * text) :=
  match match_at r false prev s with
  | Some m => Some (start, group_text (group1 m))
  | None =>
      match s with
      | c :: s' => search_from r (S start) (Some c) s'
      | [] => None
      end
  end.

Definition search (r : regex) (s : text) : option (nat * text) :=
  search_from r 0 None s.

(** ** String methods *)

Fixpoint text_eqb (a b : text) : bool :=
  match a, b with
  | [], [] => true
  | x :: a', y :: b' => Ascii.eqb x y && text_eqb a' b'
  | _, _ => false
  end.

Definition is_empty (s : text) : bool :=
  match s with [] => true | _ => false end.

(** [c in s] for a one-character [c]. *)
Definition contains (c : ascii) (s : text) : bool := existsb (Ascii.eqb c) s.

Fixpoint startswith (p s : text) : bool :=
  match p with
  | [] => true
  | c :: p' =>
      match s with
      | d :: s' => Ascii.eqb c d && startswith p' s'
      | [] => false
      end
  end.

Definition endswith (p s : text) : bool := startswith (rev p) (rev s).

Fixpoint lstrip (s : text) : text :=
  match s with
  | c :: s' => if isspace c then lstrip s' else s
  | [] => []
  end.

Definition rstrip (s : text) : text := rev (lstrip (rev s)).

(** [s.strip()] *)
Definition strip (s : text) : text := rstrip (lstrip s).

(** [s.lower()] *)
Definition lower (s : text) : text := map lower_char s.

(** [s.replace(c, "")] for a one-character [c]. *)
Definition remove_char (c : ascii) (s : text) : text :=
  filter (fun d => negb (Ascii.eqb c d)) s.

(** [s.split(c)] for a one-character separator. *)
Fixpoint split (c : ascii) (s : text) : list text :=
  match s with
  | [] => [[]]
  | d :: s' =>
      if Ascii.eqb c d then [] :: split c s'
      else
        match split c s' with
        | t :: ts => (d :: t) :: ts
        | [] => [[d]]
        end
  end.

(** [sep.join(parts)] *)
Fixpoint join (sep : text) (parts : list text) : text :=
  match parts with
  | [] => []
  | [t] => t
  | t :: ts => t ++ sep ++ join sep ts
  end.

(** [s.split(c, 1)] when [c] occurs in [s]: the text before the first [c]
    and the text after it. *)
Fixpoint split_first (c : ascii) (s : text) : text * text :=
  match s with
  | [] => ([], [])
  | d :: s' =>
      if Ascii.eqb c d then ([], s')
      else let (b, a) := split_first c s' in (d :: b, a)
  end.

(** [s.rsplit(c, 1)[0]]: the text before the last [c], or all of [s] when
    [c] does not occur. *)
Definition rsplit_head (c : ascii) (s : text) : text :=
  if contains c s then rev (snd (split_first c (rev s))) else s.

(** ** The script's patterns *)

Definition lit (s : string) : regex := Str (txt s).

Definition upper_digit_underscore (c : ascii) : bool :=
  between 65 90 c || between 48 57 c || has_code 95 c.

Definition ident_start (c : ascii) : bool :=
  between 65 90 c || between 97 122 c || has_code 95 c.

Definition ident_char (c : ascii) : bool :=
  between 65 90 c || between 97 122 c || between 48 57 c || has_code 95 c.

(** [MONO_API\s+([\s\S]*?);] *)
Definition FUNCTION_PATTERN : regex :=
  (lit "MONO_API" ++ plus isspace ++ Grp (lazy_star any_char) ++ lit ";")%re.

(** [typedef\s+enum\b[^{}]*{[\s\S]*?}\s*(\w+)\s*;] *)
Definition ENUM_PATTERN : regex :=
  (lit "typedef" ++ plus isspace ++ lit "enum" ++ Wordb
   ++ star (none_of (txt "{}")) ++ lit "{" ++ lazy_star any_char ++ lit "}"
   ++ star isspace ++ Grp (plus isword) ++ star isspace ++ lit ";")%re.

(** [\s+] *)
Definition WHITESPACE_RE : regex := plus isspace.

(** [\bMONO_[A-Z0-9_]+\b] *)
Definition MACRO_RE : regex :=
  (Wordb ++ lit "MONO_" ++ plus upper_digit_underscore ++ Wordb)%re.

(** [\b(struct|enum)\b\s*] *)
Definition STRUCT_ENUM_RE : regex :=
  (Wordb ++ Grp (Alt (lit "struct") (lit "enum")) ++ Wordb ++ star isspace)%re.

(** [/\*[\s\S]*?\*/] *)
Definition COMMENT_BLOCK_RE : regex :=
  (lit "/*" ++ lazy_star any_char ++ lit "*/")%re.

(** [([^:]|^)//.*$] with [re.MULTILINE] *)
Definition COMMENT_LINE_RE : regex :=
  (Grp (Alt (Cls (none_of (txt ":"))) Bol) ++ lit "//" ++ star not_newline
   ++ Eol)%re.

(** [\[[^\]]*\]] *)
Definition ARRAY_RE : regex :=
  (lit "[" ++ star (none_of (txt "]")) ++ lit "]")%re.

(** [\s*=\s*[^,]+$] *)
Definition DEFAULT_VALUE_RE : regex :=
  (star isspace ++ lit "=" ++ star isspace ++ plus (none_of (txt ","))
   ++ Eos)%re.

(** [\s*\*\s*] *)
Definition POINTER_SPACING_RE : regex :=
  (star isspace ++ lit "*" ++ star isspace)%re.

(** [\b(const|volatile|restrict)\b], written inline in the script. *)
Definition QUALIFIER_RE : regex :=
  (Wordb ++ Grp (Alt (lit "const") (Alt (lit "volatile") (lit "restrict")))
   ++ Wordb)%re.

(** Group 1 [[A-Za-z_][A-Za-z0-9_]*] followed by [$], written inline in
    the script. *)
Definition NAME_RE : regex :=
  (Grp (Cls ident_start ++ star ident_char) ++ Eos)%re.

(** ** The script's functions *)

Record FunctionDecl : Type := {
  name : text;
  return_type : text;
  parameters : list text
}.

Definition strip_comments (source : text) : text :=
  let without_block := sub COMMENT_BLOCK_RE (const_repl " ") source in
  sub COMMENT_LINE_RE group1_repl without_block.

(** A [Set[str]] is a list of its members; only membership is observed. *)
Definition str_set := list text.

Definition mem (x : text) (s : str_set) : bool := existsb (text_eqb x) s.

Definition collect_enum_types (source : text) : str_set :=
  finditer ENUM_PATTERN source.

(** The loop that splits the parameter text at top-level commas. *)
Fixpoint split_params (chars : text) (depth : Z) (current : text)
  (params : list text) : list text :=
  match chars with
  | [] => if is_empty current then params else params ++ [current]
  | ch :: more =>
      if Ascii.eqb ch "("%char then
        split_params more (depth + 1)%Z (current ++ [ch]) params
      else if Ascii.eqb ch ")"%char then
        split_params more (depth - 1)%Z (current ++ [ch]) params
      else if Ascii.eqb ch ","%char && (depth =? 0)%Z then
        split_params more depth [] (params ++ [current])
      else
        split_params more depth (current ++ [ch]) params
  end.

(** The text of a fragment after the six substitutions of the second
    loop, before the [...] test. *)
Definition param_text (p : text) : text :=
  let p := sub MACRO_RE (const_repl " ") p in
  let p := sub ARRAY_RE (const_repl "*") p in
  let p := sub DEFAULT_VALUE_RE (const_repl "") p in
  let p := sub QUALIFIER_RE (const_repl " ") p in
  let p := sub POINTER_SPACING_RE (const_repl "*") p in
  strip (sub WHITESPACE_RE (const_repl " ") p).

(** The body of the second loop: what one fragment appends to
    [normalized], [None] when it appends nothing. *)
Definition param_type (param : text) : option text :=
  let p := strip param in
  if is_empty p || text_eqb p (txt "void") then None
  else
    let p := param_text p in
    if text_eqb p (txt "...") then None
    else
      let tokens := split " "%char p in
      let tokens :=
        if 1 <? length tokens then removelast tokens else tokens in
      let type_part := strip (join (txt " ") tokens) in
      let type_part := sub POINTER_SPACING_RE (const_repl "*") type_part in
      if is_empty type_part then None else Some type_part.

Fixpoint normalize_params (params : list text) (normalized : list text)
  : list text :=
  match params with
  | [] => normalized
  | param :: more =>
      match param_type param with
      | Some type_part => normalize_params more (normalized ++ [type_part])
      | None => normalize_params more normalized
      end
  end.

Definition parse_parameters (param_text : text) : list text :=
  if text_eqb param_text (txt "") || text_eqb param_text (txt "void") then []
  else normalize_params (split_params param_text 0%Z [] []) [].

(** The declaration text after the five substitutions that open
    [parse_function_declaration]. *)
Definition declaration_text (declaration : text) : text :=
  let text := strip (sub WHITESPACE_RE (const_repl " ") declaration) in
  let text := sub MACRO_RE (const_repl " ") text in
  let text := sub STRUCT_ENUM_RE (const_repl "") text in
  let text := sub POINTER_SPACING_RE (const_repl "*") text in
  strip (sub WHITESPACE_RE (const_repl " ") text).

Definition parse_function_declaration (declaration : text)
  : option FunctionDecl :=
  let text := declaration_text declaration in
  if negb (contains "("%char text) || negb (contains ")"%char text) then None
  else
    let (before_params, params_tail) := split_first "("%char text in
    let params_raw := strip (rsplit_head ")"%char params_tail) in
    let before_params := strip before_params in
    match search NAME_RE before_params with
    | None => None
    | Some (start, name) =>
        let return_type := strip (firstn start before_params) in
        if is_empty return_type then None
        else
          let parameters := parse_parameters params_raw in
          Some {| name := name; return_type := return_type;
                  parameters := parameters |}
    end.

Definition parse_functions (source : text) : list FunctionDecl :=
  flat_map
    (fun declaration =>
       match parse_function_declaration declaration with
       | Some parsed => [parsed]
       | None => []
       end)
    (finditer FUNCTION_PATTERN source).

Definition normalize_type (type_name : text) : text :=
  let value := strip type_name in
  let value := sub QUALIFIER_RE (const_repl " ") value in
  let value := sub STRUCT_ENUM_RE (const_repl "") value in
  let value := sub POINTER_SPACING_RE (const_repl "*") value in
  strip (sub WHITESPACE_RE (const_repl " ") value).

(** A call that returns a value or raises [ValueError] (the only
    exception the classifier can raise: [int()] on a digit character that
    is not decimal, or on more digits than the interpreter converts). *)
Inductive result (A : Type) : Type :=
| Ok (a : A)
| ValueError.
Arguments Ok {A} a.
Arguments ValueError {A}.

Definition bind {A B : Type} (x : result A) (f : A -> result B) : result B :=
  match x with Ok a => f a | ValueError => ValueError end.

Notation "x <- e ;; k" := (bind e (fun x => k))
  (at level 61, e at next level, right associativity).

Fixpoint lookup {V : Type} (key : text) (d : list (text * V)) : option V :=
  match d with
  | [] => None
  | (k, v) :: d' => if text_eqb key k then Some v else lookup key d'
  end.

Definition table (l : list (string * string)) : list (text * text) :=
  map (fun kv => (txt (fst kv), txt (snd kv))) l.

Local Open Scope string_scope.

Definition NUMBER_TYPE_MAP : list (text * text) := table [
  ("void", "void");
  ("bool", "bool");
  ("_bool", "bool");
  ("boolean", "bool");
  ("char", "char");
  ("signedchar", "int");
  ("unsignedchar", "uchar");
  ("short", "int");
  ("shortint", "int");
  ("unsignedshort", "uint");
  ("unsignedshortint", "uint");
  ("int", "int");
  ("int32", "int");
  ("long", "long");
  ("longint", "long");
  ("unsignedlong", "ulong");
  ("unsignedlongint", "ulong");
  ("unsignedint", "uint");
  ("uint", "uint");
  ("uint32", "uint");
  ("int64", "int64");
  ("unsignedint64", "uint64");
  ("double", "double");
  ("float", "float");
  ("size_t", "size_t");
  ("time_t", "long")
].

Definition GENERIC_INT_ALIASES : list (text * text) := table [
  ("mono_bool", "int");
  ("mono_boolean", "int");
  ("mono_unichar2", "uint");
  ("gunichar2", "uint");
  ("gboolean", "int");
  ("gint", "int");
  ("guint", "uint");
  ("gint32", "int");
  ("guint32", "uint");
  ("gint16", "int");
  ("guint16", "uint");
  ("gint8", "int");
  ("guint8", "uint");
  ("mono_string_hash", "uint");
  ("mono_marshaltype", "int")
].

Definition POINTER_SIZED_INTS : str_set := map txt [
  "intptr_t";
  "uintptr_t";
  "ssize_t";
  "gssize";
  "gsize";
  "ptrdiff_t"
].

Local Close Scope string_scope.

(** The interpreter's limit on the number of digits [int()] converts:
    [sys.int_info.default_max_str_digits], which the script leaves at its
    default. *)
Definition int_max_str_digits : Z := 4300.

(** [int(digits)] on a text of [isdigit] characters: the value when every
    character is a decimal digit and there are no more of them than the
    interpreter's limit (leading zeros count), [ValueError] otherwise (and
    on the empty text). *)
Definition int_of (digits : text) : result Z :=
  if is_empty digits
     || negb (forallb isdecimal digits)
     || (int_max_str_digits <? Z.of_nat (length digits))%Z
  then ValueError
  else Ok (fold_left (fun n c => (10 * n + (Z.of_N (code c) - 48))%Z) digits 0%Z).

(** [digits and int(digits) > 32], where [digits] are the [isdigit]
    characters of [canonical]. *)
Definition wider_than_32 (canonical : text) : result bool :=
  let digits := filter isdigit canonical in
  if is_empty digits then Ok false
  else n <- int_of digits ;; Ok (32 <? n)%Z.

Definition map_native_type (type_name : text) (enum_types : str_set)
  : result text :=
  if is_empty type_name then Ok (txt "void")
  else if contains "*"%char type_name || endswith (txt "]") type_name then
    Ok (txt "pointer")
  else
    let canonical := lower (remove_char " "%char type_name) in
    if mem type_name enum_types then Ok (txt "int")
    else
      match lookup canonical NUMBER_TYPE_MAP with
      | Some category => Ok category
      | None =>
      match lookup canonical GENERIC_INT_ALIASES with
      | Some category => Ok category
      | None =>
          if mem canonical POINTER_SIZED_INTS then
            if startswith (txt "u") canonical
               || startswith (txt "gsize") canonical
            then Ok (txt "size_t")
            else Ok (txt "long")
          else if endswith (txt "_t") canonical
                  && startswith (txt "u")
                       (firstn (length canonical - 2) canonical)
          then
            wide <- wider_than_32 canonical ;;
            Ok (txt (if wide then "uint64" else "uint"))
          else if endswith (txt "_t") canonical then
            wide <- wider_than_32 canonical ;;
            Ok (txt (if wide then "int64" else "int"))
          else if mem canonical POINTER_SIZED_INTS then
            Ok (txt (if contains "u"%char canonical then "size_t" else "long"))
          else Ok (txt "pointer")
      end
      end.

(** ** The registry builder *)

(** The [mapped] dict: its keys [name] (here [sig_name]), [retType] and
    [argTypes]. *)
Record Signature : Type := {
  sig_name : text;
  retType : text;
  argTypes : list text
}.

(** The [functions] dict, in insertion order. *)
Definition registry := list (text * Signature).

Definition setdefault (key : text) (value : Signature) (d : registry)
  : registry :=
  match lookup key d with
  | Some _ => d
  | None => d ++ [(key, value)]
  end.

Fixpoint map_result {A B : Type} (f : A -> result B) (l : list A)
  : result (list B) :=
  match l with
  | [] => Ok []
  | a :: l' => b <- f a ;; bs <- map_result f l' ;; Ok (b :: bs)
  end.

(** The [mapped] dict of [generate]: the declaration's name and the
    categories of its normalised return and parameter types. *)
Definition mapped_signature (enum_types : str_set) (decl : FunctionDecl)
  : result Signature :=
  let return_type := normalize_type (return_type decl) in
  let arg_types := map normalize_type (parameters decl) in
  ret <- map_native_type return_type enum_types ;;
  args <- map_result (fun arg => map_native_type arg enum_types) arg_types ;;
  Ok {| sig_name := name decl; retType := ret; argTypes := args |}.

(** The namespace test of [generate], as the script writes it. *)
Definition in_namespace (name : text) : bool :=
  startswith (txt "mono") name || startswith (txt "monoeg") name.

Section Builder.
(** The test that keeps a declaration. *)
Variable keep : text -> bool.

(** The body of the inner loop of [generate] for one declaration. *)
Definition add_declaration (enum_types : str_set) (functions : registry)
  (decl : FunctionDecl) : result registry :=
  if negb (keep (name decl)) then Ok functions
  else
    mapped <- mapped_signature enum_types decl ;;
    Ok (setdefault (name decl) mapped functions).

Fixpoint add_declarations (enum_types : str_set) (functions : registry)
  (decls : list FunctionDecl) : result registry :=
  match decls with
  | [] => Ok functions
  | decl :: more =>
      functions' <- add_declaration enum_types functions decl ;;
      add_declarations enum_types functions' more
  end.

(** The loop of [generate] over the header texts, in processing order. *)
Fixpoint read_headers (include_files : list text) (enum_types : str_set)
  (functions : registry) : result registry :=
  match include_files with
  | [] => Ok functions
  | source :: more =>
      let sanitized := strip_comments source in
      let enum_types := enum_types ++ collect_enum_types sanitized in
      functions' <-
        add_declarations enum_types functions (parse_functions sanitized) ;;
      read_headers more enum_types functions'
  end.
End Builder.

(** [a <= b] on [str]: lexicographic on code points. *)
Fixpoint text_leb (a b : text) : bool :=
  match a, b with
  | [], _ => true
  | _ :: _, [] => false
  | x :: a', y :: b' =>
      (code x <? code y)%N || ((code x =? code y)%N && text_leb a' b')
  end.

Fixpoint insert_sorted (x : text) (l : list text) : list text :=
  match l with
  | [] => [x]
  | y :: l' => if text_leb x y then x :: l else y :: insert_sorted x l'
  end.

(** [sorted(names)] *)
Definition sorted (names : list text) : list text :=
  fold_right insert_sorted [] names.

(** The entries in the order the output lists them:
    [functions[name] for name in sorted(functions)]. *)
Definition emitted (functions : registry) : list (text * Signature) :=
  flat_map
    (fun name =>
       match lookup name functions with
       | Some signature => [(name, signature)]
       | None => []
       end)
    (sorted (map fst functions)).

(** The registry [generate] builds from the header texts (given in the
    order the script reads them), in output order. *)
Definition generate_with (keep : text -> bool) (include_files : list text)
  : result (list (text * Signature)) :=
  functions <- read_headers keep include_files [] [] ;;
  Ok (emitted functions).

Definition generate (include_files : list text)
  : result (list (text * Signature)) :=
  generate_with in_namespace include_files.

(** * Definitions used to state the properties *)

(** The fourteen marshaling categories. *)
Definition categories : list text := map txt [
  "void"; "bool"; "char"; "uchar"; "int"; "uint"; "long"; "ulong";
  "int64"; "uint64"; "float"; "double"; "size_t"; "pointer"
]%string.

Definition is_category (c : text) : bool := mem c categories.

(** [lower(type_name.replace(" ", ""))], the form the tables are keyed by. *)
Definition canonical_form (type_name : text) : text :=
  lower (remove_char " "%char type_name).

(** Every digit character of the text is a decimal digit: it has none of
    the superscripts that [str.isdigit] accepts and [int()] refuses. *)
Definition plain_digits (s : text) : bool :=
  forallb (fun c => implb (isdigit c) (isdecimal c)) s.

(** The digit characters of the text are digits [int()] converts: each
    character that [str.isdigit] accepts is one of [0] to [9], and there
    are no more of them than the interpreter's limit. *)
Definition convertible_digits (s : text) : bool :=
  plain_digits s
  && (Z.of_nat (length (filter isdigit s)) <=? int_max_str_digits)%Z.


(** The namespace test with its second disjunct removed. *)
Definition starts_with_mono (name : text) : bool :=
  startswith (txt "mono") name.

(** The header [MONO_API int mono_foo (void* obj, const char* name);]. *)
Definition minimal_header : text :=
  txt "MONO_API int mono_foo (void* obj, const char* name);".

(** Two headers: the first declares a function over the enum [Color], the
    second defines [Color]. *)
Definition uses_color : text :=
  txt "MONO_API Color mono_get_color (Color fallback);".

Definition defines_color : text :=
  txt "typedef enum { RED, GREEN } Color;".

Definition signature (n r : string) (args : list string) : text * Signature :=
  (txt n, {| sig_name := txt n; retType := txt r; argTypes := map txt args |}).
Arguments signature (n r)%_string_scope args%_list_scope.

(** The declarations a run extracts, in the order it meets them, each with
    the enum set it is classified with. *)
Fixpoint extracted (include_files : list text) (enum_types : str_set)
  : list (str_set * FunctionDecl) :=
  match include_files with
  | [] => []
  | source :: more =>
      let sanitized := strip_comments source in
      let enum_types := enum_types ++ collect_enum_types sanitized in
      map (pair enum_types) (parse_functions sanitized)
      ++ extracted more enum_types
  end.

(** The first extracted declaration of the name [n] that passes the
    namespace test. *)
Definition first_occurrence (n : text) (l : list (str_set * FunctionDecl))
  : option (str_set * FunctionDecl) :=
  find (fun ed => in_namespace (name (snd ed)) && text_eqb n (name (snd ed))) l.

(** What the registry holds once the declarations [seq] are processed:
    for each name, the signature mapped from its first kept occurrence. *)
Definition holds_first (seq : list (str_set * FunctionDecl)) (F : registry)
  : Prop :=
  forall n,
    match first_occurrence n seq with
    | Some (E, d) => exists s, mapped_signature E d = Ok s /\ lookup n F = Some s
    | None => lookup n F = None
    end.

(** Lexicographic order on code points. *)
Inductive lex_lt : text -> text -> Prop :=
| lex_shorter c b : lex_lt [] (c :: b)
| lex_head x y a b : (code x < code y)%N -> lex_lt (x :: a) (y :: b)
| lex_tail x a b : lex_lt a b -> lex_lt (x :: a) (x :: b).

Definition lex_le (a b : text) : Prop := a = b \/ lex_lt a b.


(** Two headers that declare [mono_b] differently. *)
Definition first_header : text :=
  txt "MONO_API uint64_t mono_b (void); MONO_API int mono_a (int x);".

Definition second_header : text :=
  txt "MONO_API int mono_b (char *s); MONO_API void mono_c (void);".

(** ** What the patterns match, without the search order

    [Matches r prev s g prev' t g']: the pattern [r] matches a prefix of
    [s] (the character before [s] being [prev], group 1 being [g]) and
    leaves [t], with [prev'] before it and group 1 set to [g']. *)

Fixpoint advance (prev : option ascii) (l : text) : option ascii :=
  match l with
  | [] => prev
  | c :: l' => advance (Some c) l'
  end.

Inductive Matches
  : regex -> option ascii -> text -> option text
    -> option ascii -> text -> option text -> Prop :=
| M_str l prev t g :
    Matches (Str l) prev (l ++ t) g (advance prev l) t g
| M_cls p prev c t g :
    p c = true -> Matches (Cls p) prev (c :: t) g (Some c) t g
| M_rep lazy pl p prev run t g :
    forallb p run = true -> (pl = true -> run <> []) ->
    Matches (Rep lazy pl p) prev (run ++ t) g (advance prev run) t g
| M_cat a b prev s g pv1 t1 g1 pv2 t2 g2 :
    Matches a prev s g pv1 t1 g1 -> Matches b pv1 t1 g1 pv2 t2 g2 ->
    Matches (Cat a b) prev s g pv2 t2 g2
| M_alt_l a b prev s g pv t g' :
    Matches a prev s g pv t g' -> Matches (Alt a b) prev s g pv t g'
| M_alt_r a b prev s g pv t g' :
    Matches b prev s g pv t g' -> Matches (Alt a b) prev s g pv t g'
| M_grp a prev s g pv t g' :
    Matches a prev s g pv t g' ->
    Matches (Grp a) prev s g pv t (Some (firstn (length s - length t) s))
| M_bol prev s g : at_bol prev = true -> Matches Bol prev s g prev s g
| M_eol prev s g : at_eol s = true -> Matches Eol prev s g prev s g
| M_eos prev s g : at_eos s = true -> Matches Eos prev s g prev s g
| M_wordb prev s g :
    xorb (word_before prev) (word_after s) = true ->
    Matches Wordb prev s g prev s g.

(** A pattern none of whose matches is empty. *)
Definition never_empty (r : regex) : Prop :=
  forall prev s g pv t g',
    Matches r prev s g pv t g' -> length t < length s.

(** The pieces a scan yields for a pattern that never matches empty. *)
Inductive Scans (r : regex) : option ascii -> text -> list piece -> Prop :=
| Sc_nil prev : Scans r prev [] []
| Sc_keep prev c s out :
    (forall pv t g, ~ Matches r prev (c :: s) None pv t g) ->
    Scans r (Some c) s out ->
    Scans r prev (c :: s) (Kept c :: out)
| Sc_hit prev mt t g out :
    mt <> [] ->
    Matches r prev (mt ++ t) None (advance prev mt) t g ->
    Scans r (advance prev mt) t out ->
    Scans r prev (mt ++ t) (Hit g :: out).

Definition expand (repl : option text -> text) (pieces : list piece) : text :=
  flat_map (fun p => match p with Kept c => [c] | Hit g => repl g end) pieces.

(** A text that matches [[A-Za-z_][A-Za-z0-9_]*] in full. *)
Definition identifier (s : text) : bool :=
  match s with
  | c :: s' => ident_start c && forallb ident_char s'
  | [] => false
  end.

(** [id] is the longest identifier that ends the text [s], and [pre] is
    what precedes it. *)
Definition trailing_identifier (s pre id : text) : Prop :=
  s = pre ++ id /\ identifier id = true
  /\ forall pre' id', s = pre' ++ id' -> identifier id' = true ->
                      length id' <= length id.

(** ** Comments *)

(** The text holds the two characters that close a block comment. *)
Inductive closes : text -> Prop :=
| closes_here t : closes ("*" :: "/" :: t)%char
| closes_later c t : closes t -> closes (c :: t).

(** A block comment starts at the head of the text. *)
Definition opens (s : text) : Prop :=
  exists t, s = ("/" :: "*" :: t)%char /\ closes t.

(** A block comment starts somewhere in the text. *)
Inductive has_block : text -> Prop :=
| has_block_here s : opens s -> has_block s
| has_block_later c s : has_block s -> has_block (c :: s).

(** What [COMMENT_BLOCK_RE.sub(" ", s)] may return. *)
Inductive Blk : text -> text -> Prop :=
| Blk_nil : Blk [] []
| Blk_keep c s out :
    ~ opens (c :: s) -> Blk s out -> Blk (c :: s) (c :: out)
| Blk_hit body t out :
    Blk t out ->
    Blk ("/" :: "*" :: body ++ "*" :: "/" :: t)%char (" "%char :: out).

(** A line comment starts at the head of the text, [prev] being the
    character before it. *)
Definition line_start (prev : option ascii) (s : text) : Prop :=
  (exists c t, s = (c :: "/" :: "/" :: t)%char /\ none_of (txt ":") c = true)
  \/ (at_bol prev = true /\ exists t, s = ("/" :: "/" :: t)%char).

(** What [COMMENT_LINE_RE.sub(r"\1", s)] may return from a position. *)
Inductive Lin : option ascii -> text -> text -> Prop :=
| Lin_nil prev : Lin prev [] []
| Lin_keep prev c s out :
    ~ line_start prev (c :: s) -> Lin (Some c) s out ->
    Lin prev (c :: s) (c :: out)
| Lin_cut1 prev c body t pv out :
    forallb not_newline body = true -> at_eol t = true ->
    at_bol pv = false -> Lin pv t out ->
    Lin prev (c :: "/" :: "/" :: body ++ t)%char (c :: out)
| Lin_cut2 prev body t pv out :
    forallb not_newline body = true -> at_eol t = true ->
    at_bol pv = false -> Lin pv t out ->
    Lin prev ("/" :: "/" :: body ++ t)%char out.

(** No line comment starts anywhere in the text. *)
Fixpoint no_line (prev : option ascii) (t : text) : Prop :=
  match t with
  | [] => True
  | c :: t' => ~ line_start prev t /\ no_line (Some c) t'
  end.

(** ** Definitions for the further properties *)

(** [map_native_type] without its last test on [POINTER_SIZED_INTS]
    (the one after the two [_t] tests). *)
Definition map_native_type_without_last_test (type_name : text)
  (enum_types : str_set) : result text :=
  if is_empty type_name then Ok (txt "void")
  else if contains "*"%char type_name || endswith (txt "]") type_name then
    Ok (txt "pointer")
  else
    let canonical := lower (remove_char " "%char type_name) in
    if mem type_name enum_types then Ok (txt "int")
    else
      match lookup canonical NUMBER_TYPE_MAP with
      | Some category => Ok category
      | None =>
      match lookup canonical GENERIC_INT_ALIASES with
      | Some category => Ok category
      | None =>
          if mem canonical POINTER_SIZED_INTS then
            if startswith (txt "u") canonical
               || startswith (txt "gsize") canonical
            then Ok (txt "size_t")
            else Ok (txt "long")
          else if endswith (txt "_t") canonical
                  && startswith (txt "u")
                       (firstn (length canonical - 2) canonical)
          then
            wide <- wider_than_32 canonical ;;
            Ok (txt (if wide then "uint64" else "uint"))
          else if endswith (txt "_t") canonical then
            wide <- wider_than_32 canonical ;;
            Ok (txt (if wide then "int64" else "int"))
          else Ok (txt "pointer")
      end
      end.

(** The number the decimal digits of a text spell, read in order. *)
Definition embedded_number (s : text) : Z :=
  fold_left (fun n c => (10 * n + (Z.of_N (code c) - 48))%Z)
    (filter isdecimal s) 0%Z.

(** A type name that none of the rules before the [_t] tests decides. *)
Definition undecided (type_name : text) (enum_types : str_set) : Prop :=
  type_name <> []
  /\ contains "*" type_name = false
  /\ endswith (txt "]") type_name = false
  /\ mem type_name enum_types = false
  /\ lookup (canonical_form type_name) NUMBER_TYPE_MAP = None
  /\ lookup (canonical_form type_name) GENERIC_INT_ALIASES = None
  /\ mem (canonical_form type_name) POINTER_SIZED_INTS = false.

(** How many characters of the text have the property [q]. *)
Definition count_of (q : ascii -> bool) (s : text) : nat :=
  length (filter q s).

(** A character that [str.isdigit] accepts and [int()] does not
    convert. *)
Definition improper_digit (c : ascii) : bool :=
  isdigit c && negb (isdecimal c).

(** A declaration none of whose type strings has more than [n]
    characters with the property [q]. *)
Definition types_within (q : ascii -> bool) (n : nat) (d : FunctionDecl)
  : Prop :=
  count_of q (return_type d) <= n
  /\ Forall (fun p => count_of q p <= n) (parameters d).

(** The texts that the matches of a scan capture. *)
Definition captured (pieces : list piece) : list text :=
  flat_map (fun p => match p with Kept _ => [] | Hit g => [group_text g] end)
    pieces.

(** The enum set after the headers [include_files] are read. *)
Fixpoint enums_after (include_files : list text) (enum_types : str_set)
  : str_set :=
  match include_files with
  | [] => enum_types
  | source :: more =>
      enums_after more
        (enum_types ++ collect_enum_types (strip_comments source))
  end.

(** What an entry of the registry is made from: a declaration the run
    extracted, in the namespace, whose name is the key and whose mapped
    signature is the entry. *)
Definition entry_of (include_files : list text) (n : text) (s : Signature)
  : Prop :=
  exists E d source,
    In source include_files
    /\ In d (parse_functions (strip_comments source))
    /\ in_namespace (name d) = true
    /\ n = name d
    /\ mapped_signature E d = Ok s.

(** A non-empty run of word characters. *)
Definition word (s : text) : Prop := s <> [] /\ forallb isword s = true.

(** A piece of a scan whose group, when it is a match, has the property
    [G]. *)
Definition hit_with (G : option text -> Prop) (p : piece) : Prop :=
  match p with
  | Kept _ => True
  | Hit g => G g
  end.

(** A text whose only white space is single spaces between other
    characters: no other white-space character, no two spaces in a row,
    no space at either end. *)
Definition canonical_spacing (t : text) : Prop :=
  (forall c, In c t -> isspace c = true -> c = " "%char)
  /\ (forall a b, t <> a ++ " "%char :: " "%char :: b)
  /\ (forall b, t <> " "%char :: b)
  /\ (forall a, t <> a ++ [" "%char]).

(** What [WHITESPACE_RE.sub(" ", s)] returns: each maximal run of white
    space becomes one space. *)
Inductive Wsp : text -> text -> Prop :=
| Wsp_nil : Wsp [] []
| Wsp_keep c s out :
    isspace c = false -> Wsp s out -> Wsp (c :: s) (c :: out)
| Wsp_hit c run t out :
    isspace c = true -> forallb isspace run = true -> lstrip t = t ->
    Wsp t out -> Wsp (c :: run ++ t) (" "%char :: out).

(** The keywords the normaliser removes. *)
Definition removed_keywords : list text :=
  map txt ["const"; "volatile"; "restrict"; "struct"; "enum"]%string.
(** * Properties *)

(** ** Text equality and membership *)

Lemma text_eqb_eq (a b : text) : text_eqb a b = true <-> a = b.
Proof.
  revert b; induction a as [|x a IH]; intros [|y b]; simpl;
    try (split; [discriminate | congruence]); try tauto.
  rewrite andb_true_iff, Ascii.eqb_eq, IH.
  split; [intros [-> ->]; reflexivity | intros H; inversion H; auto].
Qed.

Lemma text_eqb_refl (a : text) : text_eqb a a = true.
Proof. apply text_eqb_eq; reflexivity. Qed.

Lemma mem_In (x : text) (s : str_set) : mem x s = true <-> In x s.
Proof.
  unfold mem; rewrite existsb_exists; split.
  - intros (y & Hy & He); apply text_eqb_eq in He; subst; assumption.
  - intros H; exists x; split; [assumption | apply text_eqb_refl].
Qed.

Lemma lookup_In {V : Type} (key : text) (d : list (text * V)) (v : V) :
  lookup key d = Some v -> In (key, v) d.
Proof.
  induction d as [|[k w] d IH]; simpl; [discriminate|].
  destruct (text_eqb key k) eqn:E.
  - apply text_eqb_eq in E; subst; intros [= ->]; left; reflexivity.
  - intros H; right; auto.
Qed.

(** ** The classifier *)

Lemma is_empty_nil (s : text) : is_empty s = true <-> s = [].
Proof. destruct s; simpl; split; congruence. Qed.

Lemma table_values (d : list (text * text)) (key v : text) :
  forallb (fun kv => is_category (snd kv)) d = true ->
  lookup key d = Some v -> In v categories.
Proof.
  intros Hall Hl; apply lookup_In in Hl.
  rewrite forallb_forall in Hall; apply Hall in Hl.
  apply mem_In; exact Hl.
Qed.

(** [str.lower] neither makes nor removes a digit character. *)
Lemma lower_char_digit (c : ascii) :
  isdigit (lower_char c) = isdigit c /\ isdecimal (lower_char c) = isdecimal c.
Proof.
  destruct c as [[] [] [] [] [] [] [] []]; split; reflexivity.
Qed.

Lemma digits_of_canonical (s : text) :
  filter isdigit (canonical_form s) = filter isdigit s
  /\ filter isdecimal (canonical_form s) = filter isdecimal s.
Proof.
  unfold canonical_form, lower, remove_char.
  induction s as [|c s [IH1 IH2]]; [split; reflexivity|].
  cbn [filter].
  assert (Hl : isdigit c = true -> lower_char c = c)
    by (destruct c as [[] [] [] [] [] [] [] []]; intros H;
        try reflexivity; discriminate H).
  assert (Hd : isdecimal c = true -> isdigit c = true)
    by (unfold isdigit; intros ->; reflexivity).
  destruct (Ascii.eqb " " c) eqn:Es; cbn [negb map filter].
  - apply Ascii.eqb_eq in Es; subst c; split; assumption.
  - destruct (lower_char_digit c) as [-> ->].
    destruct (isdigit c) eqn:E1, (isdecimal c) eqn:E2;
      rewrite ?IH1, ?IH2; try rewrite (Hl eq_refl); split; try reflexivity.
    specialize (Hd eq_refl); discriminate.
Qed.

Lemma plain_digits_filter (s : text) :
  forallb isdecimal (filter isdigit s) = plain_digits s.
Proof.
  unfold plain_digits; induction s as [|c s IH]; [reflexivity|].
  cbn [filter forallb].
  destruct (isdigit c); cbn [forallb implb]; rewrite IH; reflexivity.
Qed.

Lemma int_of_convertible (s : text) :
  convertible_digits s = true -> filter isdigit s <> [] ->
  exists n, int_of (filter isdigit s) = Ok n.
Proof.
  unfold convertible_digits, int_of; rewrite andb_true_iff.
  intros [Hp Hl] Hne.
  rewrite plain_digits_filter, Hp.
  apply Z.leb_le in Hl.
  replace (int_max_str_digits <? Z.of_nat (length (filter isdigit s)))%Z
    with false by (symmetry; apply Z.ltb_ge; exact Hl).
  destruct (filter isdigit s); [congruence|].
  eexists; reflexivity.
Qed.

Lemma wider_than_32_ok (s : text) :
  convertible_digits s = true ->
  exists b, wider_than_32 (canonical_form s) = Ok b.
Proof.
  intros H; unfold wider_than_32.
  destruct (digits_of_canonical s) as [-> _].
  destruct (filter isdigit s) eqn:E; [eexists; reflexivity|].
  rewrite <- E in *; cbn [is_empty].
  replace (is_empty (filter isdigit s)) with false by (rewrite E; reflexivity).
  destruct (int_of_convertible s H) as [n ->]; [rewrite E; discriminate|].
  eexists; reflexivity.
Qed.

Lemma map_native_type_category (type_name : text) (enum_types : str_set) :
  convertible_digits type_name = true ->
  exists c, map_native_type type_name enum_types = Ok c /\ In c categories.
Proof.
  intros Hd; unfold map_native_type; fold (canonical_form type_name).
  assert (Hc : forall s, is_category (txt s) = true ->
               exists c, Ok (txt s) = Ok c /\ In c categories)
    by (intros s Hs; exists (txt s); split; [reflexivity | now apply mem_In]).
  destruct (is_empty type_name); [now apply Hc|].
  destruct (contains "*" type_name || endswith (txt "]") type_name);
    [now apply Hc|].
  destruct (mem type_name enum_types); [now apply Hc|].
  destruct (lookup (canonical_form type_name) NUMBER_TYPE_MAP) as [v|] eqn:E1.
  { exists v; split; [reflexivity|].
    eapply table_values; [|exact E1]; reflexivity. }
  destruct (lookup (canonical_form type_name) GENERIC_INT_ALIASES)
    as [v|] eqn:E2.
  { exists v; split; [reflexivity|].
    eapply table_values; [|exact E2]; reflexivity. }
  destruct (wider_than_32_ok type_name Hd) as [w Hw].
  destruct (mem (canonical_form type_name) POINTER_SIZED_INTS).
  { destruct (startswith (txt "u") (canonical_form type_name)
              || startswith (txt "gsize") (canonical_form type_name));
      now apply Hc. }
  destruct (endswith (txt "_t") (canonical_form type_name)
            && startswith (txt "u")
                 (firstn (length (canonical_form type_name) - 2)
                    (canonical_form type_name))).
  { rewrite Hw; simpl; destruct w; now apply Hc. }
  destruct (endswith (txt "_t") (canonical_form type_name)).
  { rewrite Hw; simpl; destruct w; now apply Hc. }
  now apply Hc.
Qed.

Lemma unknown_is_pointer (type_name : text) (enum_types : str_set) :
  type_name <> [] ->
  contains "*" type_name = false ->
  endswith (txt "]") type_name = false ->
  mem type_name enum_types = false ->
  lookup (canonical_form type_name) NUMBER_TYPE_MAP = None ->
  lookup (canonical_form type_name) GENERIC_INT_ALIASES = None ->
  mem (canonical_form type_name) POINTER_SIZED_INTS = false ->
  endswith (txt "_t") (canonical_form type_name) = false ->
  map_native_type type_name enum_types = Ok (txt "pointer").
Proof.
  intros Hne Hs Hb He Hn Hg Hp Ht.
  unfold map_native_type; fold (canonical_form type_name).
  destruct type_name as [|c t]; [congruence|]; simpl is_empty; cbv iota.
  rewrite Hs, Hb, He, Hn, Hg, Hp, Ht; reflexivity.
Qed.

(** C3, as the script has it.  On every type name whose digit
    characters are all among [0] to [9] and number no more than the
    interpreter converts, the classifier returns one of the fourteen
    categories; and a non-empty name without [*], not ending in a
    bracket, outside the enum set, whose canonical form (spaces removed,
    lower-cased) is in no table and does not end in [_t], classifies as
    [pointer] -- as [MonoOpaqueHandle] does. *)
Theorem classifier_total_with_pointer_default :
  (forall type_name enum_types,
     convertible_digits type_name = true ->
     exists c, map_native_type type_name enum_types = Ok c
               /\ In c categories)
  /\ (forall type_name enum_types,
        type_name <> [] ->
        contains "*" type_name = false ->
        endswith (txt "]") type_name = false ->
        mem type_name enum_types = false ->
        lookup (canonical_form type_name) NUMBER_TYPE_MAP = None ->
        lookup (canonical_form type_name) GENERIC_INT_ALIASES = None ->
        mem (canonical_form type_name) POINTER_SIZED_INTS = false ->
        endswith (txt "_t") (canonical_form type_name) = false ->
        map_native_type type_name enum_types = Ok (txt "pointer"))
  /\ (forall enum_types,
        mem (txt "MonoOpaqueHandle") enum_types = false ->
        map_native_type (txt "MonoOpaqueHandle") enum_types
        = Ok (txt "pointer")).
Proof.
  split; [exact map_native_type_category|].
  split; [exact unknown_is_pointer|].
  intros E HE; apply unknown_is_pointer; try reflexivity;
    [discriminate | exact HE].
Qed.

Lemma classifier_total_with_pointer_default_witness :
  (exists c, map_native_type (txt "uint64_t") [txt "Color"] = Ok c
             /\ In c categories)
  /\ map_native_type (txt "MonoOpaqueHandle") [txt "Color"]
     = Ok (txt "pointer").
Proof.
  split.
  - apply (proj1 classifier_total_with_pointer_default); reflexivity.
  - apply (proj2 (proj2 classifier_total_with_pointer_default)); reflexivity.
Defined.

(** C3 as stated fails on the empty name: it has no [*], no closing
    bracket, is in no enum set and no table and does not end in [_t], and
    it classifies as [void]. *)
Lemma empty_name_is_void :
  contains "*" (txt "") = false
  /\ endswith (txt "]") (txt "") = false
  /\ mem (txt "") [] = false
  /\ lookup (canonical_form (txt "")) NUMBER_TYPE_MAP = None
  /\ lookup (canonical_form (txt "")) GENERIC_INT_ALIASES = None
  /\ mem (canonical_form (txt "")) POINTER_SIZED_INTS = false
  /\ endswith (txt "_t") (txt "") = false
  /\ map_native_type (txt "") [] = Ok (txt "void")
  /\ map_native_type (txt "") [] <> Ok (txt "pointer").
Proof. repeat split; discriminate. Qed.

(** The classifier raises on a [_t] name with a superscript digit:
    [int()] refuses the digit that [str.isdigit] let through. *)
Example superscript_digit_raises :
  map_native_type [ascii_of_N 178; "_"; "t"]%char [] = ValueError.
Proof. reflexivity. Qed.

(** It raises as well on a [_t] name with more decimal digits than the
    interpreter converts. *)
Example too_many_digits_raise :
  map_native_type (txt "int" ++ repeat "9"%char 4301 ++ txt "_t") []
  = ValueError.
Proof. vm_compute; reflexivity. Qed.

(** With as many digits as the limit it still returns. *)
Example limit_digits_convert :
  map_native_type (txt "int" ++ repeat "9"%char 4300 ++ txt "_t") []
  = Ok (txt "int64").
Proof. vm_compute; reflexivity. Qed.

(** C4.  A normalised type that contains [*] or ends with a closing
    bracket classifies as [pointer], whatever the enum set; so does
    [const enum Color *], also when [Color] is a registered enum. *)
Theorem pointer_precedence :
  (forall enum_types type_name,
     contains "*" (normalize_type type_name) = true
     \/ endswith (txt "]") (normalize_type type_name) = true ->
     map_native_type (normalize_type type_name) enum_types
     = Ok (txt "pointer"))
  /\ normalize_type (txt "const enum Color *") = txt "Color*"
  /\ (forall enum_types,
        map_native_type (normalize_type (txt "const enum Color *"))
          (txt "Color" :: enum_types) = Ok (txt "pointer")).
Proof.
  assert (H : forall E n,
             contains "*" n = true \/ endswith (txt "]") n = true ->
             map_native_type n E = Ok (txt "pointer")).
  { intros E n Hn; unfold map_native_type.
    destruct n as [|c n]; [destruct Hn; discriminate|].
    simpl is_empty; cbv iota.
    destruct Hn as [-> | ->]; [reflexivity | now rewrite orb_true_r]. }
  split; [intros E t; apply H|].
  split; [reflexivity|].
  intros E; apply H; left; reflexivity.
Qed.

Lemma pointer_precedence_witness :
  map_native_type (normalize_type (txt "unsigned char buf ]")) [txt "Color"]
  = Ok (txt "pointer").
Proof.
  apply (proj1 pointer_precedence); right; reflexivity.
Defined.

(** C8, as the script has it.  The pointer-sized set has six members:
    [intptr_t], [uintptr_t], [ssize_t], [gssize], [gsize] and [ptrdiff_t].
    A name outside the enum set, without [*] or closing bracket, whose
    canonical form is a member classifies as [size_t] when the member is
    [uintptr_t] or [gsize] and as [long] otherwise. *)
Theorem pointer_sized_rule :
  (forall c,
     mem c POINTER_SIZED_INTS = true <->
     In c (map txt ["intptr_t"; "uintptr_t"; "ssize_t"; "gssize"; "gsize";
                    "ptrdiff_t"]%string))
  /\ (forall type_name enum_types,
        contains "*" type_name = false ->
        endswith (txt "]") type_name = false ->
        mem type_name enum_types = false ->
        mem (canonical_form type_name) POINTER_SIZED_INTS = true ->
        map_native_type type_name enum_types
        = Ok (if mem (canonical_form type_name) [txt "uintptr_t"; txt "gsize"]
              then txt "size_t" else txt "long"))
  /\ map_native_type (txt "uintptr_t") [] = Ok (txt "size_t")
  /\ map_native_type (txt "ssize_t") [] = Ok (txt "long").
Proof.
  split; [intros c; apply mem_In|].
  split; [|split; reflexivity].
  intros type_name E Hs Hb He Hp.
  unfold map_native_type; fold (canonical_form type_name).
  assert (Hne : is_empty type_name = false)
    by (destruct type_name; [discriminate Hp | reflexivity]).
  rewrite Hne, Hs, Hb, He; simpl orb; cbv iota.
  rewrite Hp.
  apply mem_In in Hp; simpl in Hp.
  destruct Hp as [H|[H|[H|[H|[H|[H|[]]]]]]]; rewrite <- H; reflexivity.
Qed.

Lemma pointer_sized_rule_witness :
  map_native_type (txt "GSize") [txt "Color"] = Ok (txt "size_t").
Proof.
  apply (proj1 (proj2 pointer_sized_rule) (txt "GSize") [txt "Color"]);
    reflexivity.
Defined.

(** C8 as stated fails: no choice of two aliases makes the five-member set
    of the claim the set the rule applies to, because [gssize], [gsize] and
    [ptrdiff_t] are all members; [ptrdiff_t] classifies as [long]. *)
Lemma pointer_sized_set_has_six :
  ~ (exists a b, forall c,
       mem c POINTER_SIZED_INTS = true <->
       In c [txt "intptr_t"; txt "uintptr_t"; txt "ssize_t"; a; b])
  /\ map_native_type (txt "ptrdiff_t") [] = Ok (txt "long").
Proof.
  split; [|reflexivity].
  intros (a & b & H).
  pose proof (proj1 (H (txt "gssize")) eq_refl) as H1.
  pose proof (proj1 (H (txt "gsize")) eq_refl) as H2.
  pose proof (proj1 (H (txt "ptrdiff_t")) eq_refl) as H3.
  simpl in H1, H2, H3.
  destruct H1 as [H1|[H1|[H1|[H1|[H1|[]]]]]]; try discriminate H1;
  destruct H2 as [H2|[H2|[H2|[H2|[H2|[]]]]]]; try discriminate H2;
  destruct H3 as [H3|[H3|[H3|[H3|[H3|[]]]]]]; try discriminate H3;
  congruence.
Qed.

(** C2.  The one-line header yields exactly one entry: [mono_foo], of
    return category [int] and argument categories [pointer], [pointer];
    with or without a newline after the line. *)
Theorem minimal_header_round_trip :
  generate [minimal_header]
  = Ok [signature "mono_foo" "int" ["pointer"; "pointer"]%string]
  /\ generate [minimal_header ++ [newline]]
     = Ok [signature "mono_foo" "int" ["pointer"; "pointer"]%string].
Proof. split; vm_compute; reflexivity. Qed.

(** C1 fails on the script.  The enum set grows while the headers are
    read, and a declaration is classified with the set as it is then: a
    header read before the one that defines [Color] classifies [Color] as
    [pointer]; read after it, or in the same text, as [int]. *)
Theorem enum_of_later_header_is_pointer :
  generate [uses_color; defines_color]
  = Ok [signature "mono_get_color" "pointer" ["pointer"]%string]
  /\ generate [defines_color; uses_color]
     = Ok [signature "mono_get_color" "int" ["int"]%string]
  /\ generate [uses_color ++ [newline] ++ defines_color]
     = Ok [signature "mono_get_color" "int" ["int"]%string].
Proof. repeat split; vm_compute; reflexivity. Qed.

(** ** The namespace test *)

Lemma startswith_app (p s : text) :
  startswith p s = true <-> exists t, s = p ++ t.
Proof.
  revert s; induction p as [|c p IH]; intros s; simpl.
  - split; [exists s; reflexivity | reflexivity].
  - destruct s as [|d s]; [split; [discriminate | intros [t Ht]; discriminate]|].
    rewrite andb_true_iff, Ascii.eqb_eq, IH; split.
    + intros [-> [t ->]]; exists t; reflexivity.
    + intros [t Ht]; inversion Ht; subst; split; [reflexivity | exists t; reflexivity].
Qed.

Lemma monoeg_starts_with_mono (s : text) :
  startswith (txt "monoeg") s = true -> startswith (txt "mono") s = true.
Proof.
  rewrite !startswith_app; intros [t ->]; exists (txt "eg" ++ t); reflexivity.
Qed.

Lemma in_namespace_mono (s : text) : in_namespace s = starts_with_mono s.
Proof.
  unfold in_namespace, starts_with_mono.
  destruct (startswith (txt "monoeg") s) eqn:E.
  - rewrite (monoeg_starts_with_mono s E); reflexivity.
  - apply orb_false_r.
Qed.

Section KeepExt.
Variables keep1 keep2 : text -> bool.
Hypothesis keep_ext : forall s, keep1 s = keep2 s.

Lemma add_declaration_ext E F d :
  add_declaration keep1 E F d = add_declaration keep2 E F d.
Proof. unfold add_declaration; rewrite keep_ext; reflexivity. Qed.

Lemma add_declarations_ext E F ds :
  add_declarations keep1 E F ds = add_declarations keep2 E F ds.
Proof.
  revert F; induction ds as [|d ds IH]; intros F; simpl; [reflexivity|].
  rewrite add_declaration_ext.
  destruct (add_declaration keep2 E F d); simpl; auto.
Qed.

Lemma read_headers_ext files E F :
  read_headers keep1 files E F = read_headers keep2 files E F.
Proof.
  revert E F; induction files as [|f files IH]; intros E F; simpl;
    [reflexivity|].
  rewrite add_declarations_ext.
  destruct (add_declarations keep2 _ F _); simpl; auto.
Qed.
End KeepExt.

(** C10.  A name that starts with [monoeg] starts with [mono]; the
    two-prefix test equals the test for [mono] alone, and the pipeline
    with the second disjunct removed builds the same registry from every
    list of headers. *)
Theorem namespace_filter_redundant :
  (forall s, startswith (txt "monoeg") s = true ->
             startswith (txt "mono") s = true)
  /\ (forall s, in_namespace s = starts_with_mono s)
  /\ (forall include_files,
        generate include_files = generate_with starts_with_mono include_files).
Proof.
  split; [exact monoeg_starts_with_mono|].
  split; [exact in_namespace_mono|].
  intros files; unfold generate, generate_with.
  rewrite (read_headers_ext _ _ in_namespace_mono); reflexivity.
Qed.

Lemma namespace_filter_redundant_witness :
  startswith (txt "mono") (txt "monoeg_g_free") = true.
Proof.
  apply (proj1 namespace_filter_redundant); reflexivity.
Defined.

(** ** The registry builder *)

Lemma lookup_app {V : Type} (n : text) (d e : list (text * V)) :
  lookup n (d ++ e)
  = match lookup n d with Some v => Some v | None => lookup n e end.
Proof.
  induction d as [|[k v] d IH]; simpl; [reflexivity|].
  destruct (text_eqb n k); auto.
Qed.

Lemma lookup_setdefault (n k : text) (v : Signature) (F : registry) :
  lookup n (setdefault k v F)
  = match lookup n F with
    | Some s => Some s
    | None => if text_eqb n k then Some v else None
    end.
Proof.
  unfold setdefault.
  destruct (lookup k F) eqn:Ek.
  - destruct (lookup n F) eqn:En; [reflexivity|].
    destruct (text_eqb n k) eqn:E; [|reflexivity].
    apply text_eqb_eq in E; subst; congruence.
  - rewrite lookup_app; simpl.
    destruct (lookup n F); reflexivity.
Qed.

Lemma lookup_keys {V : Type} (n : text) (d : list (text * V)) :
  In n (map fst d) <-> exists v, lookup n d = Some v.
Proof.
  induction d as [|[k v] d IH]; simpl.
  - split; [tauto | intros [v H]; discriminate].
  - destruct (text_eqb n k) eqn:E.
    + apply text_eqb_eq in E; subst; split; [exists v; reflexivity | auto].
    + rewrite IH; split; [intros [H|H]; [|exact H] | auto].
      subst; rewrite text_eqb_refl in E; discriminate.
Qed.

Lemma keys_setdefault (k : text) (v : Signature) (F : registry) :
  NoDup (map fst F) -> NoDup (map fst (setdefault k v F)).
Proof.
  intros H; unfold setdefault.
  destruct (lookup k F) eqn:E; [exact H|].
  rewrite map_app; simpl.
  apply NoDup_app; [exact H | repeat constructor; simpl; tauto |].
  intros a Ha [<-|[]].
  apply lookup_keys in Ha; destruct Ha as [w Hw]; congruence.
Qed.

Lemma first_occurrence_app n seq seq' :
  first_occurrence n (seq ++ seq')
  = match first_occurrence n seq with
    | Some x => Some x
    | None => first_occurrence n seq'
    end.
Proof.
  unfold first_occurrence; induction seq as [|x seq IH]; simpl;
    [reflexivity|].
  destruct (in_namespace (name (snd x)) && text_eqb n (name (snd x))); auto.
Qed.

Lemma add_declaration_first E F d F' seq :
  add_declaration in_namespace E F d = Ok F' ->
  holds_first seq F -> NoDup (map fst F) ->
  holds_first (seq ++ [(E, d)]) F' /\ NoDup (map fst F').
Proof.
  unfold add_declaration; intros H Hf Hnd.
  destruct (in_namespace (name d)) eqn:Ek; simpl in H.
  - destruct (mapped_signature E d) as [s|] eqn:Es; simpl in H;
      [|discriminate].
    injection H as <-; split; [|now apply keys_setdefault].
    intros n; specialize (Hf n).
    rewrite first_occurrence_app, lookup_setdefault.
    destruct (first_occurrence n seq) as [[E0 d0]|].
    + destruct Hf as (s0 & Hs0 & ->); exists s0; auto.
    + rewrite Hf; unfold first_occurrence; simpl; rewrite Ek; simpl.
      destruct (text_eqb n (name d)); [exists s; auto | reflexivity].
  - injection H as <-; split; [|exact Hnd].
    intros n; specialize (Hf n).
    rewrite first_occurrence_app.
    destruct (first_occurrence n seq) as [[E0 d0]|]; [exact Hf|].
    unfold first_occurrence; simpl; rewrite Ek; exact Hf.
Qed.

Lemma add_declarations_first E ds : forall F F' seq,
  add_declarations in_namespace E F ds = Ok F' ->
  holds_first seq F -> NoDup (map fst F) ->
  holds_first (seq ++ map (pair E) ds) F' /\ NoDup (map fst F').
Proof.
  induction ds as [|d ds IH]; intros F F' seq H Hf Hnd; simpl in *.
  - injection H as <-; rewrite app_nil_r; auto.
  - destruct (add_declaration in_namespace E F d) as [F1|] eqn:E1;
      simpl in H; [|discriminate].
    destruct (add_declaration_first _ _ _ _ _ E1 Hf Hnd) as [Hf1 Hnd1].
    specialize (IH _ _ _ H Hf1 Hnd1).
    rewrite <- app_assoc in IH; exact IH.
Qed.

Lemma read_headers_first files : forall E F F' seq,
  read_headers in_namespace files E F = Ok F' ->
  holds_first seq F -> NoDup (map fst F) ->
  holds_first (seq ++ extracted files E) F' /\ NoDup (map fst F').
Proof.
  induction files as [|f files IH]; intros E F F' seq H Hf Hnd; simpl in *.
  - injection H as <-; rewrite app_nil_r; auto.
  - destruct (add_declarations in_namespace _ F _) as [F1|] eqn:E1;
      simpl in H; [|discriminate].
    destruct (add_declarations_first _ _ _ _ _ E1 Hf Hnd) as [Hf1 Hnd1].
    specialize (IH _ _ _ _ H Hf1 Hnd1).
    rewrite <- app_assoc in IH; exact IH.
Qed.

(** *** [sorted] *)

Lemma text_leb_le (a b : text) : text_leb a b = true <-> lex_le a b.
Proof.
  unfold lex_le; revert b; induction a as [|x a IH]; intros [|y b]; simpl.
  - split; auto.
  - split; [right; constructor | reflexivity].
  - split; [discriminate | intros [H|H]; [discriminate | inversion H]].
  - rewrite orb_true_iff, andb_true_iff, N.ltb_lt, N.eqb_eq, IH.
    split.
    + intros [H|[H [->|H']]].
      * right; now constructor.
      * left; f_equal.
        unfold code in H; rewrite <- (ascii_N_embedding x),
          <- (ascii_N_embedding y); congruence.
      * assert (x = y) as ->
          by (unfold code in H; rewrite <- (ascii_N_embedding x),
                <- (ascii_N_embedding y); congruence).
        right; now constructor.
    + intros [H|H].
      * inversion H; subst; right; auto.
      * inversion H; subst; [left; assumption | right; auto].
Qed.

Lemma lex_lt_trans (a b c : text) : lex_lt a b -> lex_lt b c -> lex_lt a c.
Proof.
  intros H; revert c; induction H; intros c' H'; inversion H'; subst;
    first [apply lex_shorter | apply lex_head; lia | apply lex_tail; auto].
Qed.

Lemma lex_le_trans (a b c : text) : lex_le a b -> lex_le b c -> lex_le a c.
Proof.
  intros [->|H] [->|H']; unfold lex_le; auto.
  right; eapply lex_lt_trans; eauto.
Qed.

Lemma lex_le_total (a b : text) : text_leb a b = false -> lex_le b a.
Proof.
  revert b; induction a as [|x a IH]; intros [|y b]; simpl;
    try discriminate.
  - intros _; right; constructor.
  - rewrite orb_false_iff, andb_false_iff, N.ltb_ge, N.eqb_neq.
    intros [H1 [H2|H2]].
    + right; constructor; lia.
    + destruct (N.eq_dec (code x) (code y)) as [E|E].
      * assert (x = y) as ->
          by (unfold code in E; rewrite <- (ascii_N_embedding x),
                <- (ascii_N_embedding y); congruence).
        destruct (IH _ H2) as [->|H]; [left; reflexivity|].
        right; now constructor.
      * right; constructor; lia.
Qed.

Lemma insert_sorted_In (x : text) (l : list text) (y : text) :
  In y (insert_sorted x l) <-> y = x \/ In y l.
Proof.
  induction l as [|z l IH]; simpl; [intuition|].
  destruct (text_leb x z); simpl; rewrite ?IH; intuition.
Qed.

Lemma sorted_In (l : list text) (y : text) : In y (sorted l) <-> In y l.
Proof.
  induction l as [|x l IH]; simpl; [tauto|].
  rewrite insert_sorted_In, IH; intuition.
Qed.

Lemma insert_sorted_NoDup (x : text) (l : list text) :
  ~ In x l -> NoDup l -> NoDup (insert_sorted x l).
Proof.
  induction l as [|z l IH]; simpl; intros Hx Hl.
  - repeat constructor; auto.
  - destruct (text_leb x z).
    + constructor; [simpl; tauto | exact Hl].
    + inversion Hl; subst; constructor.
      * rewrite insert_sorted_In; intuition.
      * apply IH; tauto.
Qed.

Lemma sorted_NoDup (l : list text) : NoDup l -> NoDup (sorted l).
Proof.
  induction 1 as [|x l Hx Hl IH]; simpl; [constructor|].
  apply insert_sorted_NoDup; [rewrite sorted_In; exact Hx | exact IH].
Qed.

Lemma insert_sorted_ordered (x : text) (l : list text) :
  StronglySorted lex_le l -> StronglySorted lex_le (insert_sorted x l).
Proof.
  induction 1 as [|z l Hl IH Hz]; simpl; [repeat constructor|].
  destruct (text_leb x z) eqn:E.
  - apply text_leb_le in E.
    constructor; [constructor; assumption|].
    constructor; [exact E|].
    rewrite Forall_forall in *; intros y Hy.
    eapply lex_le_trans; [exact E | auto].
  - apply lex_le_total in E.
    constructor; [exact IH|].
    rewrite Forall_forall in *; intros y Hy.
    apply insert_sorted_In in Hy; destruct Hy as [->|Hy]; auto.
Qed.

Lemma sorted_ordered (l : list text) : StronglySorted lex_le (sorted l).
Proof.
  induction l as [|x l IH]; simpl; [constructor|].
  apply insert_sorted_ordered; exact IH.
Qed.

(** *** The output order *)

Lemma emitted_keys_of (F : registry) (names : list text) :
  (forall n, In n names -> In n (map fst F)) ->
  map fst
    (flat_map
       (fun n => match lookup n F with
                 | Some s => [(n, s)]
                 | None => []
                 end) names) = names.
Proof.
  induction names as [|n names IH]; intros H; simpl; [reflexivity|].
  rewrite map_app, IH by (intros; apply H; right; assumption).
  destruct (proj1 (lookup_keys n F) (H n (or_introl eq_refl))) as [s ->].
  reflexivity.
Qed.

Lemma emitted_keys (F : registry) :
  map fst (emitted F) = sorted (map fst F).
Proof.
  apply emitted_keys_of; intros n; apply sorted_In.
Qed.

Lemma emitted_In (F : registry) (n : text) (s : Signature) :
  In (n, s) (emitted F) <-> lookup n F = Some s.
Proof.
  unfold emitted; rewrite in_flat_map; split.
  - intros (m & _ & Hm).
    destruct (lookup m F) eqn:E; simpl in Hm; [|tauto].
    destruct Hm as [[= -> ->]|[]]; exact E.
  - intros H; exists n; split.
    + apply sorted_In, lookup_keys; eauto.
    + rewrite H; left; reflexivity.
Qed.

(** C5.  When a run succeeds, the registry holds for every name the
    signature mapped from the first extracted declaration of that name
    (and nothing for a name that is never declared), whatever later
    declarations of the name say; and the output lists the entries, one
    per name, in lexicographic order of the names. *)
Theorem first_occurrence_wins (include_files : list text)
  (out : list (text * Signature)) :
  generate include_files = Ok out ->
  (forall n,
     match first_occurrence n (extracted include_files []) with
     | Some (E, d) =>
         exists s, mapped_signature E d = Ok s
                   /\ forall s', In (n, s') out <-> s' = s
     | None => forall s', ~ In (n, s') out
     end)
  /\ StronglySorted lex_le (map fst out)
  /\ NoDup (map fst out).
Proof.
  unfold generate, generate_with; intros H.
  destruct (read_headers in_namespace include_files [] []) as [F|] eqn:E;
    simpl in H; [|discriminate].
  injection H as <-.
  assert (H0 : holds_first [] []) by (intros n; reflexivity).
  destruct (read_headers_first _ _ _ _ _ E H0 (NoDup_nil _)) as [Hf Hnd].
  simpl in Hf; split; [|split].
  - intros n; specialize (Hf n).
    destruct (first_occurrence n (extracted include_files []))
      as [[E0 d0]|].
    + destruct Hf as (s & Hs & Hl); exists s; split; [exact Hs|].
      intros s'; rewrite emitted_In, Hl; split; congruence.
    + intros s'; rewrite emitted_In, Hf; discriminate.
  - rewrite emitted_keys; apply sorted_ordered.
  - rewrite emitted_keys; apply sorted_NoDup; exact Hnd.
Qed.

Lemma first_occurrence_wins_witness :
  exists out,
    generate [first_header; second_header] = Ok out
    /\ out = [signature "mono_a" "int" ["int"]%string;
              signature "mono_b" "uint64" []%string;
              signature "mono_c" "void" []%string]
    /\ StronglySorted lex_le (map fst out).
Proof.
  eexists; split; [vm_compute; reflexivity|].
  split; [reflexivity|].
  apply (first_occurrence_wins [first_header; second_header]).
  vm_compute; reflexivity.
Defined.

(** ** Parameter fragments *)

Lemma normalize_params_flat (l : list text) (acc : list text) :
  normalize_params l acc
  = acc ++ flat_map (fun f => match param_type f with
                              | Some t => [t]
                              | None => []
                              end) l.
Proof.
  revert acc; induction l as [|f l IH]; intros acc; simpl.
  - now rewrite app_nil_r.
  - destruct (param_type f); rewrite IH; [|reflexivity].
    now rewrite <- app_assoc.
Qed.





(** ** The matcher against the patterns' meaning *)

Lemma advance_app (prev : option ascii) (a b : text) :
  advance prev (a ++ b) = advance (advance prev a) b.
Proof. revert prev; induction a; intros; simpl; auto. Qed.

Lemma literal_spec (l : text) (prev : option ascii) (s : text)
  (pv : option ascii) (t : text) :
  literal l prev s = Some (pv, t) <-> s = l ++ t /\ pv = advance prev l.
Proof.
  revert prev s; induction l as [|c l IH]; intros prev s; simpl.
  - split; [intros [= -> ->]; auto | intros [-> ->]; reflexivity].
  - destruct s as [|d s]; [split; [discriminate | intros [H _]; discriminate]|].
    destruct (Ascii.eqb c d) eqn:E.
    + apply Ascii.eqb_eq in E; subst d; rewrite IH; split.
      * intros [-> ->]; auto.
      * intros [H ->]; inversion H; auto.
    + split; [discriminate|].
      intros [H _]; inversion H; subst.
      rewrite Ascii.eqb_refl in E; discriminate.
Qed.

Lemma orelse_some {A : Type} (x y : option A) (z : A) :
  orelse x y = Some z -> x = Some z \/ (x = None /\ y = Some z).
Proof. destruct x; simpl; auto. Qed.

Lemma orelse_not_none {A : Type} (x y : option A) :
  x <> None \/ y <> None -> orelse x y <> None.
Proof. destruct x; simpl; [discriminate | tauto]. Qed.

Section Repetition.
Context {R : Type}.
Variable p : ascii -> bool.
Variable k : option ascii -> text -> option R.

Lemma rep_greedy_sound (s : text) : forall prev x,
  rep_greedy p k prev s = Some x ->
  exists run t, s = run ++ t /\ forallb p run = true
                /\ k (advance prev run) t = Some x.
Proof.
  induction s as [|c s IH]; intros prev x; simpl.
  - intros H; exists [], []; auto.
  - destruct (p c) eqn:Ec.
    + intros H; apply orelse_some in H; destruct H as [H|[_ H]].
      * destruct (IH _ _ H) as (run & t & -> & Hr & Hk).
        exists (c :: run), t; simpl; rewrite Ec; auto.
      * exists [], (c :: s); auto.
    + intros H; exists [], (c :: s); auto.
Qed.

Lemma rep_greedy_complete (run t : text) : forall prev,
  forallb p run = true -> k (advance prev run) t <> None ->
  rep_greedy p k prev (run ++ t) <> None.
Proof.
  induction run as [|c run IH]; intros prev Hr Hk; simpl in *.
  - destruct t as [|c t]; simpl; [exact Hk|].
    destruct (p c); [apply orelse_not_none; right|]; exact Hk.
  - apply andb_true_iff in Hr; destruct Hr as [-> Hr].
    apply orelse_not_none; left; auto.
Qed.

Lemma rep_lazy_sound (s : text) : forall prev x,
  rep_lazy p k prev s = Some x ->
  exists run t, s = run ++ t /\ forallb p run = true
                /\ k (advance prev run) t = Some x.
Proof.
  induction s as [|c s IH]; intros prev x; simpl.
  - destruct (k prev []) eqn:E; [|discriminate].
    intros [= <-]; exists [], []; auto.
  - destruct (k prev (c :: s)) eqn:E.
    + intros [= <-]; exists [], (c :: s); auto.
    + destruct (p c) eqn:Ec; [|discriminate].
      intros H; destruct (IH _ _ H) as (run & t & -> & Hr & Hk).
      exists (c :: run), t; simpl; rewrite Ec; auto.
Qed.

Lemma rep_lazy_complete (run t : text) : forall prev,
  forallb p run = true -> k (advance prev run) t <> None ->
  rep_lazy p k prev (run ++ t) <> None.
Proof.
  induction run as [|c run IH]; intros prev Hr Hk; simpl in *.
  - destruct t as [|c t]; simpl; destruct (k prev _); congruence.
  - apply andb_true_iff in Hr; destruct Hr as [Hc Hr].
    destruct (k prev (c :: run ++ t)); [discriminate|].
    rewrite Hc; auto.
Qed.
End Repetition.

Section MatcherMeaning.
Context {R : Type}.

Lemma mtch_sound (r : regex) :
  forall prev s g (k : option ascii -> text -> option text -> option R) x,
    mtch r prev s g k = Some x ->
    exists pv t g', Matches r prev s g pv t g' /\ k pv t g' = Some x.
Proof.
  induction r as [l|p|lz pl p|a IHa b IHb|a IHa b IHb|a IHa| | | |];
    intros prev s g k x; simpl.
  - destruct (literal l prev s) as [[pv t]|] eqn:E; [|discriminate].
    apply literal_spec in E; destruct E as [-> ->].
    intros H; exists (advance prev l), t, g; split; [constructor | exact H].
  - destruct s as [|c s]; [discriminate|].
    destruct (p c) eqn:E; [|discriminate].
    intros H; exists (Some c), s, g; split; [now constructor | exact H].
  - assert (Hloop : forall prev s x,
              (if lz then rep_lazy else rep_greedy) p
                (fun pv t => k pv t g) prev s = Some x ->
              exists run t, s = run ++ t /\ forallb p run = true
                            /\ k (advance prev run) t g = Some x).
    { intros prev0 s0 x0; destruct lz;
        [apply rep_lazy_sound | apply rep_greedy_sound]. }
    destruct pl.
    + destruct s as [|c s]; [discriminate|].
      destruct (p c) eqn:E; [|discriminate].
      intros H; apply Hloop in H; destruct H as (run & t & -> & Hr & Hk).
      exists (advance (Some c) run), t, g; split; [|exact Hk].
      apply (M_rep lz true p prev (c :: run) t g);
        [simpl; rewrite E; exact Hr | discriminate].
    + intros H; apply Hloop in H; destruct H as (run & t & -> & Hr & Hk).
      exists (advance prev run), t, g; split; [|exact Hk].
      constructor; [exact Hr | discriminate].
  - intros H; apply IHa in H; destruct H as (pv1 & t1 & g1 & Ha & H).
    apply IHb in H; destruct H as (pv2 & t2 & g2 & Hb & H).
    exists pv2, t2, g2; split; [econstructor; eauto | exact H].
  - intros H; apply orelse_some in H; destruct H as [H|[_ H]].
    + apply IHa in H; destruct H as (pv & t & g' & Hm & H).
      exists pv, t, g'; split; [now apply M_alt_l | exact H].
    + apply IHb in H; destruct H as (pv & t & g' & Hm & H).
      exists pv, t, g'; split; [now apply M_alt_r | exact H].
  - intros H; apply IHa in H; destruct H as (pv & t & g' & Hm & H).
    exists pv, t, (Some (firstn (length s - length t) s)); split;
      [econstructor; eauto | exact H].
  - destruct (at_bol prev) eqn:E; [|discriminate].
    intros H; exists prev, s, g; split; [now constructor | exact H].
  - destruct (at_eol s) eqn:E; [|discriminate].
    intros H; exists prev, s, g; split; [now constructor | exact H].
  - destruct (at_eos s) eqn:E; [|discriminate].
    intros H; exists prev, s, g; split; [now constructor | exact H].
  - destruct (xorb (word_before prev) (word_after s)) eqn:E;
      [|discriminate].
    intros H; exists prev, s, g; split; [now constructor | exact H].
Qed.

Lemma mtch_complete r prev s g pv t g' :
  Matches r prev s g pv t g' ->
  forall k : option ascii -> text -> option text -> option R,
    k pv t g' <> None -> mtch r prev s g k <> None.
Proof.
  induction 1 as [l prev t g|p prev c t g Hc|lz pl p prev run t g Hr Hne
                  |a b prev s g pv1 t1 g1 pv2 t2 g2 _ IHa _ IHb
                  |a b prev s g pv t g' _ IH|a b prev s g pv t g' _ IH
                  |a prev s g pv t g' _ IH
                  |prev s g Hb|prev s g Hb|prev s g Hb|prev s g Hb];
    intros k Hk; simpl.
  - destruct (literal l prev (l ++ t)) as [[pv t']|] eqn:E.
    + apply literal_spec in E; destruct E as [E ->].
      apply app_inv_head in E; subst; exact Hk.
    + assert (E' : literal l prev (l ++ t) = Some (advance prev l, t))
        by (apply literal_spec; auto).
      congruence.
  - rewrite Hc; exact Hk.
  - assert (Hloop : forall prev run,
              forallb p run = true -> k (advance prev run) t g <> None ->
              (if lz then rep_lazy else rep_greedy) p
                (fun pv t => k pv t g) prev (run ++ t) <> None).
    { intros prev0 run0 H1 H2; destruct lz;
        [apply rep_lazy_complete | apply rep_greedy_complete]; assumption. }
    destruct pl.
    + destruct run as [|c run]; [now specialize (Hne eq_refl)|].
      simpl in Hr |- *; apply andb_true_iff in Hr; destruct Hr as [-> Hr].
      apply Hloop; assumption.
    + apply Hloop; assumption.
  - apply IHa, IHb, Hk.
  - apply orelse_not_none; left; apply IH, Hk.
  - apply orelse_not_none; right; apply IH, Hk.
  - apply IH, Hk.
  - rewrite Hb; exact Hk.
  - rewrite Hb; exact Hk.
  - rewrite Hb; exact Hk.
  - rewrite Hb; exact Hk.
Qed.
End MatcherMeaning.

(** A match consumes a prefix of the text. *)
Lemma Matches_prefix r prev s g pv t g' :
  Matches r prev s g pv t g' ->
  exists mt, s = mt ++ t /\ pv = advance prev mt.
Proof.
  induction 1 as [l prev t g|p prev c t g Hc|lz pl p prev run t g Hr Hne
                  |a b prev s g pv1 t1 g1 pv2 t2 g2 _ IHa _ IHb
                  |a b prev s g pv t g' _ IH|a b prev s g pv t g' _ IH
                  |a prev s g pv t g' _ IH
                  |prev s g Hb|prev s g Hb|prev s g Hb|prev s g Hb];
    try exact IH;
    try (exists []; split; reflexivity).
  - exists l; auto.
  - exists [c]; auto.
  - exists run; auto.
  - destruct IHa as (m1 & -> & ->), IHb as (m2 & -> & ->).
    exists (m1 ++ m2); rewrite advance_app, app_assoc; auto.
Qed.

Lemma match_at_sound r adv prev s m :
  match_at r adv prev s = Some m ->
  exists mt, s = mt ++ rest m
             /\ Matches r prev s None (advance prev mt) (rest m) (group1 m)
             /\ (adv = true -> mt <> []).
Proof.
  unfold match_at; intros H; apply mtch_sound in H.
  destruct H as (pv & t & g' & Hm & Hk); unfold accept in Hk.
  destruct (adv && (length t =? length s)) eqn:E; [discriminate|].
  injection Hk as <-; simpl.
  destruct (Matches_prefix _ _ _ _ _ _ _ Hm) as (mt & -> & ->).
  exists mt; split; [reflexivity|]; split; [exact Hm|].
  intros ->; simpl in E; apply Nat.eqb_neq in E.
  intros ->; simpl in E; congruence.
Qed.

Lemma match_at_none r prev s :
  match_at r false prev s = None ->
  forall pv t g, ~ Matches r prev s None pv t g.
Proof.
  unfold match_at; intros H pv t g Hm.
  eapply mtch_complete in Hm; [apply Hm, H|].
  unfold accept; simpl; discriminate.
Qed.

(** *** Scanning *)

Lemma scan_skip r (l : text) : forall prev t,
  scan r (length l) prev (l ++ t) = scan r 0 (advance prev l) t.
Proof. induction l as [|c l IH]; intros prev t; simpl; auto. Qed.

Lemma scan_Scans r :
  never_empty r -> forall s prev, Scans r prev s (scan r 0 prev s).
Proof.
  intros Hne s.
  induction s as [s IH] using (induction_ltof1 _ (@length ascii)).
  unfold ltof in IH; intros prev.
  destruct (match_at r false prev s) as [m|] eqn:E.
  - destruct (match_at_sound _ _ _ _ _ E) as (mt & Hs & Hm & _).
    pose proof (Hne _ _ _ _ _ _ Hm) as Hlt.
    destruct m as [g t]; simpl in *; subst s.
    rewrite length_app in Hlt.
    destruct mt as [|c mt]; [simpl in Hlt; lia|].
    replace (scan r 0 prev ((c :: mt) ++ t))
      with (Hit g :: scan r 0 (advance prev (c :: mt)) t).
    + constructor; [discriminate | exact Hm |].
      apply IH; rewrite length_app; simpl; lia.
    + change (scan r 0 prev ((c :: mt) ++ t))
        with (match match_at r false prev ((c :: mt) ++ t) with
              | None => Kept c :: scan r 0 (Some c) (mt ++ t)
              | Some m =>
                  Hit (group1 m) ::
                  match width ((c :: mt) ++ t) m with
                  | S n => scan r n (Some c) (mt ++ t)
                  | 0 =>
                      match match_at r true prev ((c :: mt) ++ t) with
                      | Some m' =>
                          Hit (group1 m') ::
                          scan r (width ((c :: mt) ++ t) m' - 1) (Some c)
                            (mt ++ t)
                      | None => Kept c :: scan r 0 (Some c) (mt ++ t)
                      end
                  end
              end).
      rewrite E; unfold width; simpl rest; simpl group1.
      replace (length ((c :: mt) ++ t) - length t) with (S (length mt))
        by (rewrite length_app; change (length (c :: mt)) with (S (length mt));
            lia).
      rewrite scan_skip; reflexivity.
  - destruct s as [|c s]; simpl; rewrite E; [constructor|].
    constructor; [now apply match_at_none|].
    apply IH; simpl; lia.
Qed.

Lemma sub_Scans r repl s :
  never_empty r ->
  exists pieces, Scans r None s pieces /\ sub r repl s = expand repl pieces.
Proof.
  intros H; exists (scan r 0 None s); split;
    [now apply scan_Scans | reflexivity].
Qed.

(** A text in which the pattern matches nowhere is left as it is. *)
Lemma scan_no_match r : forall s prev,
  (forall pre suf pv t g,
     s = pre ++ suf -> ~ Matches r (advance prev pre) suf None pv t g) ->
  scan r 0 prev s = map Kept s.
Proof.
  induction s as [|c s IH]; intros prev H.
  - simpl; destruct (match_at r false prev []) as [m|] eqn:E; [|reflexivity].
    destruct (match_at_sound _ _ _ _ _ E) as (mt & _ & Hm & _).
    exfalso; exact (H [] [] _ _ _ eq_refl Hm).
  - simpl; destruct (match_at r false prev (c :: s)) as [m|] eqn:E.
    + destruct (match_at_sound _ _ _ _ _ E) as (mt & _ & Hm & _).
      exfalso; exact (H [] (c :: s) _ _ _ eq_refl Hm).
    + f_equal; apply IH; intros pre suf pv t g -> Hm.
      exact (H (c :: pre) suf pv t g eq_refl Hm).
Qed.

Lemma expand_kept repl (s : text) : expand repl (map Kept s) = s.
Proof. induction s; simpl; congruence. Qed.

(** ** Searching *)

Lemma search_from_spec r : forall s start prev,
  match search_from r start prev s with
  | Some (n, grp) =>
      exists pre suf m,
        s = pre ++ suf /\ n = start + length pre
        /\ match_at r false (advance prev pre) suf = Some m
        /\ grp = group_text (group1 m)
        /\ forall pre' suf' pv t g,
             s = pre' ++ suf' -> length pre' < length pre ->
             ~ Matches r (advance prev pre') suf' None pv t g
  | None =>
      forall pre suf pv t g,
        s = pre ++ suf -> ~ Matches r (advance prev pre) suf None pv t g
  end.
Proof.
  induction s as [|c s IH]; intros start prev; simpl.
  - destruct (match_at r false prev []) as [m|] eqn:E.
    + exists [], [], m; simpl; repeat split; auto.
      intros pre' suf' pv t g _ H; inversion H.
    + intros pre suf pv t g H.
      symmetry in H; apply app_eq_nil in H; destruct H as [-> ->]; simpl.
      now apply match_at_none.
  - destruct (match_at r false prev (c :: s)) as [m|] eqn:E.
    + exists [], (c :: s), m; simpl; repeat split; auto.
      intros pre' suf' pv t g _ H; inversion H.
    + specialize (IH (S start) (Some c)).
      destruct (search_from r (S start) (Some c) s) as [[n grp]|].
      * destruct IH as (pre & suf & m & -> & -> & Hm & Hg & Hmin).
        exists (c :: pre), suf, m.
        split; [reflexivity|]. split; [simpl; lia|].
        split; [exact Hm|]. split; [exact Hg|].
        intros pre' suf' pv t g Hs Hl.
        destruct pre' as [|c' pre']; simpl in *.
        -- subst suf'; now apply match_at_none.
        -- injection Hs as <- Hs; eapply Hmin; [exact Hs | lia].
      * intros pre suf pv t g Hs.
        destruct pre as [|c' pre]; simpl in *.
        -- subst suf; now apply match_at_none.
        -- injection Hs as <- Hs; eapply IH; exact Hs.
Qed.

(** ** The name of a declaration *)

Lemma name_matches prev s pv t g :
  Matches NAME_RE prev s None pv t g ->
  exists id, s = id ++ t /\ identifier id = true /\ at_eos t = true
             /\ g = Some id.
Proof.
  unfold NAME_RE; intros H.
  inversion H as [| | |a b p0 s0 g0 pv1 t1 g1 pv2 t2 g2 Hg He| | | | | | |];
    subst; clear H.
  inversion He; subst; clear He.
  inversion Hg as [| | | | | |a p0 s0 g0 pv0 t0 g0' Hc| | | |]; subst; clear Hg.
  inversion Hc as [| | |a b p0 s0 g0 pv1 t1 g1 pv2 t2 g2 H1 H2| | | | | | |];
    subst; clear Hc.
  inversion H1; subst; clear H1.
  inversion H2; subst; clear H2.
  exists (c :: run); repeat split; auto.
  - simpl; apply andb_true_iff; auto.
  - f_equal.
    change (c :: run ++ t) with ((c :: run) ++ t).
    replace (length ((c :: run) ++ t) - length t) with (length (c :: run))
      by (rewrite length_app; lia).
    rewrite firstn_app, firstn_all, Nat.sub_diag; simpl.
    now rewrite app_nil_r.
Qed.

Lemma identifier_matches prev id :
  identifier id = true ->
  Matches NAME_RE prev id None (advance prev id) [] (Some id).
Proof.
  destruct id as [|c run]; [discriminate|]; simpl.
  rewrite andb_true_iff; intros [Hc Hr].
  unfold NAME_RE.
  apply M_cat with (pv1 := advance (Some c) run) (t1 := [])
                   (g1 := Some (c :: run)); [|now constructor].
  replace (Some (c :: run))
    with (Some (firstn (length (c :: run) - length (@nil ascii)) (c :: run)))
    by (change (length (@nil ascii)) with 0;
        rewrite Nat.sub_0_r, firstn_all; reflexivity).
  apply M_grp with (g' := None).
  apply M_cat with (pv1 := Some c) (t1 := run) (g1 := None);
    [now constructor|].
  rewrite <- (app_nil_r run) at 1.
  constructor; [exact Hr | discriminate].
Qed.

(** *** [strip] *)

Lemma lstrip_head (s : text) (c : ascii) (t : text) :
  lstrip s = c :: t -> isspace c = false.
Proof.
  induction s as [|d s IH]; simpl; [discriminate|].
  destruct (isspace d) eqn:E; [exact IH|].
  intros [= <- _]; exact E.
Qed.

Lemma strip_last (s l : text) (c : ascii) :
  strip s = l ++ [c] -> isspace c = false.
Proof.
  unfold strip, rstrip; intros H.
  apply (f_equal (@rev ascii)) in H.
  rewrite rev_involutive, rev_app_distr in H; simpl in H.
  eapply lstrip_head; exact H.
Qed.

Lemma search_name (b : text) :
  (forall l c, b = l ++ [c] -> isspace c = false) ->
  match search NAME_RE b with
  | Some (n, id) =>
      trailing_identifier b (firstn n b) id /\ n + length id = length b
  | None => forall pre id, b = pre ++ id -> identifier id = false
  end.
Proof.
  intros Hb; unfold search.
  pose proof (search_from_spec NAME_RE b 0 None) as H.
  destruct (search_from NAME_RE 0 None b) as [[n grp]|].
  - destruct H as (pre & suf & m & -> & -> & Hm & -> & Hmin).
    destruct (match_at_sound _ _ _ _ _ Hm) as (mt & _ & HM & _).
    apply name_matches in HM; destruct HM as (id & Hid & Hi & He & Hg).
    rewrite Hg; simpl.
    assert (Ht : rest m = []).
    { destruct (rest m) as [|c [|c' t]] eqn:Et; try discriminate;
        [reflexivity|].
      simpl in He.
      assert (isspace c = true)
        by (destruct c as [[] [] [] [] [] [] [] []]; try discriminate;
            reflexivity).
      rewrite (Hb (pre ++ id) c) in H; [discriminate|].
      rewrite Hid, <- app_assoc; reflexivity. }
    rewrite Ht, app_nil_r in Hid; subst suf.
    rewrite firstn_app, firstn_all, Nat.sub_diag; simpl; rewrite app_nil_r.
    split; [|rewrite length_app; lia].
    split; [reflexivity|]; split; [exact Hi|].
    intros pre' id' Hs' Hi'.
    destruct (Nat.le_gt_cases (length id') (length id)) as [Hl|Hl];
      [exact Hl | exfalso].
    apply (Hmin pre' id' (advance (advance None pre') id') [] (Some id') Hs').
    + apply (f_equal (@length ascii)) in Hs'; rewrite !length_app in Hs'; lia.
    + now apply identifier_matches.
  - intros pre id Hs.
    destruct (identifier id) eqn:Hi; [exfalso | reflexivity].
    eapply (H pre id); [exact Hs|].
    apply identifier_matches; exact Hi.
Qed.

Lemma trailing_identifier_unique s pre id pre' id' :
  trailing_identifier s pre id -> trailing_identifier s pre' id' ->
  pre = pre' /\ id = id'.
Proof.
  intros (Hs & Hi & Hmax) (Hs' & Hi' & Hmax').
  assert (Hl : length id = length id')
    by (apply Nat.le_antisymm; [eapply Hmax' | eapply Hmax]; eauto).
  assert (Hp : length pre = length pre').
  { apply (f_equal (@length ascii)) in Hs, Hs'.
    rewrite length_app in Hs, Hs'; lia. }
  rewrite Hs in Hs'.
  apply app_eq_app in Hs'; destruct Hs' as (l & [[-> ->]|[-> ->]]);
    rewrite length_app in Hp; destruct l; simpl in Hp; try lia;
    rewrite ?app_nil_r; auto.
Qed.

(** C7.  [parse_function_declaration] returns [None] exactly when the
    declaration text, after its substitutions, has no opening or no
    closing parenthesis, or the trimmed text before the first opening
    parenthesis ends in no identifier, or nothing but white space
    precedes the longest identifier it ends in.  Otherwise it returns a
    declaration whose name is an identifier and whose return type is not
    empty. *)
Theorem parse_declaration_result (declaration : text) :
  let text := declaration_text declaration in
  let before := strip (fst (split_first "(" text)) in
  (parse_function_declaration declaration = None <->
     contains "(" text = false
     \/ contains ")" text = false
     \/ (forall pre id, before = pre ++ id -> identifier id = false)
     \/ (exists pre id, trailing_identifier before pre id /\ strip pre = []))
  /\ (forall fd,
        parse_function_declaration declaration = Some fd ->
        identifier (name fd) = true /\ return_type fd <> []).
Proof.
  intros text before; unfold parse_function_declaration.
  fold text.
  destruct (contains "(" text) eqn:Eo; simpl;
    [|split; [split; auto | discriminate]].
  destruct (contains ")" text) eqn:Ec; simpl;
    [|split; [split; auto | discriminate]].
  destruct (split_first "(" text) as [bp tail] eqn:Es.
  simpl in before; fold before.
  pose proof (search_name before (strip_last bp)) as Hn.
  destruct (search NAME_RE before) as [[n id]|].
  - destruct Hn as [Ht Hlen].
    destruct (is_empty (strip (firstn n before))) eqn:Ee.
    + apply is_empty_nil in Ee; split; [|discriminate].
      split; [|reflexivity].
      intros _; right; right; right.
      exists (firstn n before), id; auto.
    + split.
      * split; [discriminate|].
        intros [H|[H|[H|H]]]; try discriminate.
        -- destruct Ht as (Hs & Hi & _).
           rewrite (H _ _ Hs) in Hi; discriminate.
        -- destruct H as (pre & id' & Ht' & Hp).
           destruct (trailing_identifier_unique _ _ _ _ _ Ht Ht') as [<- _].
           rewrite Hp in Ee; discriminate.
      * intros fd [= <-]; simpl.
        destruct Ht as (_ & Hi & _); split; [exact Hi|].
        intros H; rewrite H in Ee; discriminate.
  - split; [|discriminate].
    split; [|reflexivity].
    intros _; right; right; left; exact Hn.
Qed.

Lemma parse_declaration_result_witness :
  identifier (txt "mono_foo") = true /\ txt "int" <> [].
Proof.
  apply (proj2 (parse_declaration_result
                  (txt "int mono_foo (void* obj, const char* name)"))
           {| name := txt "mono_foo"; return_type := txt "int";
              parameters := [txt "void*obj"; txt "char*name"] |}).
  vm_compute; reflexivity.
Defined.

(** ** Block comments *)

Ltac invert_match H :=
  inversion H; subst; clear H.

Lemma closes_app (t : text) :
  closes t <-> exists body u, t = (body ++ "*" :: "/" :: u)%char.
Proof.
  split.
  - induction 1 as [t|c t _ (body & u & ->)].
    + exists [], t; reflexivity.
    + exists (c :: body), u; reflexivity.
  - intros (body & u & ->); induction body; simpl; constructor; auto.
Qed.

Lemma closes_suffix (l t : text) : closes t -> closes (l ++ t).
Proof. intros H; induction l; simpl; [exact H | now constructor]. Qed.

Lemma has_block_suffix (l t : text) : has_block t -> has_block (l ++ t).
Proof. intros H; induction l; simpl; [exact H | now constructor]. Qed.

Lemma block_matches prev s g pv t g' :
  Matches COMMENT_BLOCK_RE prev s g pv t g' ->
  exists body, s = ("/" :: "*" :: body ++ "*" :: "/" :: t)%char /\ g' = g.
Proof.
  unfold COMMENT_BLOCK_RE, lit, lazy_star; intros H.
  invert_match H.
  match goal with H : Matches (Cat _ _) _ _ _ _ _ _ |- _ => invert_match H end.
  repeat match goal with
         | H : Matches (Str _) _ _ _ _ _ _ |- _ => invert_match H
         | H : Matches (Rep _ _ _) _ _ _ _ _ _ |- _ => invert_match H
         end.
  exists run; split; reflexivity.
Qed.

Lemma block_matches_intro prev body t :
  exists pv,
    Matches COMMENT_BLOCK_RE prev ("/" :: "*" :: body ++ "*" :: "/" :: t)%char
      None pv t None.
Proof.
  unfold COMMENT_BLOCK_RE, lit, lazy_star.
  eexists.
  eapply M_cat; [apply (M_str (txt "/*"))|].
  eapply M_cat; [apply (M_rep true false any_char _ body)|].
  - clear; induction body; simpl; auto.
  - discriminate.
  - apply (M_str (txt "*/")).
Qed.

Lemma block_never_empty : never_empty COMMENT_BLOCK_RE.
Proof.
  intros prev s g pv t g' H; apply block_matches in H.
  destruct H as (body & -> & _); simpl; rewrite length_app; simpl; lia.
Qed.

Lemma opens_matches prev s :
  opens s -> exists pv t g, Matches COMMENT_BLOCK_RE prev s None pv t g.
Proof.
  intros (t & -> & Hc); apply closes_app in Hc; destruct Hc as (body & u & ->).
  destruct (block_matches_intro prev body u) as [pv H]; eauto.
Qed.

Lemma matches_opens prev s g pv t g' :
  Matches COMMENT_BLOCK_RE prev s g pv t g' -> opens s.
Proof.
  intros H; apply block_matches in H; destruct H as (body & -> & _).
  eexists; split; [reflexivity|]; apply closes_app; eauto.
Qed.

Lemma Scans_Blk prev s pieces :
  Scans COMMENT_BLOCK_RE prev s pieces ->
  Blk s (expand (const_repl " ") pieces).
Proof.
  induction 1 as [prev|prev c s out Hn _ IH|prev mt t g out Hne Hm _ IH];
    simpl.
  - constructor.
  - constructor; [|exact IH].
    intros Ho; destruct (opens_matches prev _ Ho) as (pv & t & g & Hm).
    exact (Hn _ _ _ Hm).
  - apply block_matches in Hm; destruct Hm as (body & -> & _).
    now constructor.
Qed.

Lemma Blk_head s x out :
  Blk s (x :: out) -> x <> " "%char -> exists s', s = x :: s' /\ Blk s' out.
Proof.
  intros H Hx; inversion H; subst; [eauto | congruence].
Qed.

Lemma Blk_closes s out : Blk s out -> closes out -> closes s.
Proof.
  induction 1 as [|c s out Hn Hb IH|body t out Hb IH]; intros Hc.
  - exact Hc.
  - inversion Hc as [u|c' u Hu]; subst.
    + apply Blk_head in Hb; [|discriminate].
      destruct Hb as (s' & -> & _); constructor.
    + constructor; auto.
  - inversion Hc as [u|c' u Hu]; subst.
    change ("/" :: "*" :: body ++ "*" :: "/" :: t)%char
      with ((("/" :: "*" :: body) ++ "*" :: "/" :: t))%char.
    apply closes_suffix; do 2 apply closes_later; auto.
Qed.

Lemma Blk_clean s out : Blk s out -> ~ has_block out.
Proof.
  induction 1 as [|c s out Hn Hb IH|body t out Hb IH]; intros Hh.
  - inversion Hh as [s0 (t & Ht & _)|]; discriminate.
  - inversion Hh as [s0 (t & Ht & Hc)|c' s0 Hs]; subst; [|auto].
    injection Ht as -> ->.
    apply Blk_head in Hb; [|discriminate].
    destruct Hb as (s' & -> & Hb).
    apply Hn; exists s'; split; [reflexivity|].
    eapply Blk_closes; eauto.
  - inversion Hh as [s0 (u & Hu & _)|c' s0 Hs]; subst; [discriminate | auto].
Qed.

Lemma clean_block_sub (t : text) :
  ~ has_block t -> sub COMMENT_BLOCK_RE (const_repl " ") t = t.
Proof.
  intros H; unfold sub.
  rewrite scan_no_match; [apply expand_kept|].
  intros pre suf pv u g -> Hm.
  apply H, has_block_suffix; constructor.
  eapply matches_opens; exact Hm.
Qed.

Lemma block_sub_Blk (s : text) :
  Blk s (sub COMMENT_BLOCK_RE (const_repl " ") s).
Proof.
  destruct (sub_Scans COMMENT_BLOCK_RE (const_repl " ") s block_never_empty)
    as (pieces & Hs & ->).
  eapply Scans_Blk; exact Hs.
Qed.

(** ** Line comments *)

Lemma span_line (t : text) :
  exists body u, t = body ++ u /\ forallb not_newline body = true
                 /\ at_eol u = true.
Proof.
  induction t as [|c t (body & u & -> & Hb & Hu)].
  - exists [], []; auto.
  - destruct (not_newline c) eqn:E.
    + exists (c :: body), u; simpl; rewrite E; auto.
    + exists [], (c :: body ++ u); repeat split; auto.
      unfold not_newline in E; simpl; now apply negb_false_iff in E.
Qed.

Lemma advance_not_bol (body : text) : forall c,
  at_bol (Some c) = false -> forallb not_newline body = true ->
  at_bol (advance (Some c) body) = false.
Proof.
  induction body as [|d body IH]; intros c Hc Hb; simpl in *; [exact Hc|].
  apply andb_true_iff in Hb; destruct Hb as [Hd Hb].
  apply IH; [|exact Hb].
  unfold not_newline in Hd; now apply negb_true_iff in Hd.
Qed.

Lemma line_matches prev s g pv t g' :
  Matches COMMENT_LINE_RE prev s g pv t g' ->
  at_bol pv = false
  /\ exists body,
       forallb not_newline body = true /\ at_eol t = true
       /\ ((exists c, none_of (txt ":") c = true
                      /\ s = (c :: "/" :: "/" :: body ++ t)%char
                      /\ g' = Some [c])
           \/ (at_bol prev = true
               /\ s = ("/" :: "/" :: body ++ t)%char /\ g' = Some [])).
Proof.
  unfold COMMENT_LINE_RE, lit, star; intros H.
  invert_match H.
  repeat match goal with
         | H : Matches (Cat _ _) _ _ _ _ _ _ |- _ => invert_match H
         end.
  repeat match goal with
         | H : Matches (Str _) _ _ _ _ _ _ |- _ => invert_match H
         | H : Matches (Rep _ _ _) _ _ _ _ _ _ |- _ => invert_match H
         | H : Matches Eol _ _ _ _ _ _ |- _ => invert_match H
         | H : Matches (Grp _) _ _ _ _ _ _ |- _ => invert_match H
         end.
  match goal with H : Matches (Alt _ _) _ _ _ _ _ _ |- _ => invert_match H end.
  - match goal with H : Matches (Cls _) _ _ _ _ _ _ |- _ => invert_match H end.
    split; [apply advance_not_bol; auto|].
    exists run; repeat split; auto.
    left; exists c; repeat split; auto.
    simpl txt; simpl app.
    replace (length (c :: "/" :: "/" :: run ++ t)%char
             - length ("/" :: "/" :: run ++ t)%char) with 1
      by (simpl length; lia).
    reflexivity.
  - match goal with H : Matches Bol _ _ _ _ _ _ |- _ => invert_match H end.
    split; [apply advance_not_bol; auto|].
    exists run; repeat split; auto.
    right; repeat split; auto.
    rewrite Nat.sub_diag; reflexivity.
Qed.

Lemma line_never_empty : never_empty COMMENT_LINE_RE.
Proof.
  intros prev s g pv t g' H; apply line_matches in H.
  destruct H as (_ & body & _ & _ & [(c & _ & -> & _)|(_ & -> & _)]);
    simpl; rewrite length_app; lia.
Qed.

Lemma line_start_matches prev s :
  line_start prev s ->
  exists pv t g, Matches COMMENT_LINE_RE prev s None pv t g.
Proof.
  unfold COMMENT_LINE_RE, lit, star.
  intros [(c & t & -> & Hc)|(Hb & t & ->)];
    destruct (span_line t) as (body & u & -> & Hbody & Hu).
  - do 3 eexists.
    eapply M_cat; [eapply M_grp; apply M_alt_l, M_cls; exact Hc|].
    eapply M_cat; [apply (M_str (txt "//"))|].
    eapply M_cat; [apply (M_rep false false not_newline _ body);
                   [exact Hbody | discriminate]|].
    apply M_eol; exact Hu.
  - do 3 eexists.
    eapply M_cat; [eapply M_grp; apply M_alt_r, M_bol; exact Hb|].
    eapply M_cat; [apply (M_str (txt "//"))|].
    eapply M_cat; [apply (M_rep false false not_newline _ body);
                   [exact Hbody | discriminate]|].
    apply M_eol; exact Hu.
Qed.

Lemma matches_line_start prev s g pv t g' :
  Matches COMMENT_LINE_RE prev s g pv t g' -> line_start prev s.
Proof.
  intros H; apply line_matches in H.
  destruct H as (_ & body & _ & _ & [(c & Hc & -> & _)|(Hb & -> & _)]).
  - left; eauto.
  - right; eauto.
Qed.

Lemma Scans_Lin prev s pieces :
  Scans COMMENT_LINE_RE prev s pieces ->
  Lin prev s (expand group1_repl pieces).
Proof.
  induction 1 as [prev|prev c s out Hn _ IH|prev mt t g out Hne Hm _ IH];
    simpl.
  - constructor.
  - constructor; [|exact IH].
    intros Ho; destruct (line_start_matches prev _ Ho) as (pv & t & g & Hm).
    exact (Hn _ _ _ Hm).
  - apply line_matches in Hm.
    destruct Hm as (Hpv & body & Hb & Hu
                    & [(c & _ & -> & ->)|(_ & -> & ->)]); simpl.
    + eapply Lin_cut1; eauto.
    + eapply Lin_cut2; eauto.
Qed.

Lemma line_sub_Lin (s : text) :
  Lin None s (sub COMMENT_LINE_RE group1_repl s).
Proof.
  destruct (sub_Scans COMMENT_LINE_RE group1_repl s line_never_empty)
    as (pieces & Hs & ->).
  eapply Scans_Lin; exact Hs.
Qed.

Lemma Lin_eol prev s out : Lin prev s out -> at_eol s = true -> at_eol out = true.
Proof.
  induction 1; simpl; intros He; auto; discriminate.
Qed.

Lemma Lin_head prev s x out :
  Lin prev s (x :: out) -> has_code 10 x = false -> exists s', s = x :: s'.
Proof.
  intros H Hx; inversion H as [|? ? ? ? _ _|? ? ? ? ? ? _ _ _ _
                               |? ? ? ? ? _ Hu _ Hl]; subst; eauto.
  apply Lin_eol in Hl; [|exact Hu]; simpl in Hl; congruence.
Qed.

Lemma Lin_head2 prev s out :
  Lin prev s ("/" :: "/" :: out)%char ->
  exists s', s = ("/" :: "/" :: s')%char.
Proof.
  intros H; inversion H as [|? ? ? ? _ Hl|? ? ? ? ? ? _ Hu _ Hl
                            |? ? ? ? ? _ Hu _ Hl]; subst.
  - apply Lin_head in Hl; [|reflexivity].
    destruct Hl as [s' ->]; eauto.
  - apply Lin_eol in Hl; [|exact Hu]; discriminate.
  - apply Lin_eol in Hl; [|exact Hu]; discriminate.
Qed.

Lemma no_line_prev (p q : option ascii) (t : text) :
  (forall u, t <> ("/" :: "/" :: u)%char) -> no_line p t -> no_line q t.
Proof.
  destruct t as [|c t]; simpl; [auto|].
  intros Hs [Hn Ht]; split; [|exact Ht].
  intros [H|(_ & u & Hu)]; [apply Hn; left; exact H|].
  exact (Hs _ Hu).
Qed.

Lemma eol_not_slashes (t : text) :
  at_eol t = true -> forall u, t <> ("/" :: "/" :: u)%char.
Proof. intros H u ->; discriminate. Qed.

Lemma Lin_no_line prev s out : Lin prev s out -> no_line prev out.
Proof.
  induction 1 as [prev|prev c s out Hn Hl IH
                  |prev c body t pv out Hb Hu Hpv Hl IH
                  |prev body t pv out Hb Hu Hpv Hl IH]; simpl.
  - exact I.
  - split; [|exact IH].
    intros [(c' & u & Hs & Hc)|(Hp & u & Hs)]; apply Hn.
    + injection Hs as -> ->.
      destruct (Lin_head2 _ _ _ Hl) as [s' ->].
      left; eauto.
    + injection Hs as -> ->.
      destruct (Lin_head _ _ _ _ Hl eq_refl) as [s' ->].
      right; eauto.
  - pose proof (Lin_eol _ _ _ Hl Hu) as Ho.
    split.
    + intros [(c' & u & Hs & _)|(_ & u & Hs)]; injection Hs as -> ->;
        discriminate.
    + eapply no_line_prev; [apply eol_not_slashes; exact Ho | exact IH].
  - pose proof (Lin_eol _ _ _ Hl Hu) as Ho.
    eapply no_line_prev; [apply eol_not_slashes; exact Ho | exact IH].
Qed.

Lemma no_line_scan (t : text) : forall prev,
  no_line prev t -> scan COMMENT_LINE_RE 0 prev t = map Kept t.
Proof.
  induction t as [|c t IH]; intros prev H; simpl.
  - destruct (match_at COMMENT_LINE_RE false prev []) as [m|] eqn:E;
      [|reflexivity].
    destruct (match_at_sound _ _ _ _ _ E) as (mt & _ & Hm & _).
    apply line_never_empty in Hm; simpl in Hm; lia.
  - destruct H as [Hn Ht].
    destruct (match_at COMMENT_LINE_RE false prev (c :: t)) as [m|] eqn:E.
    + destruct (match_at_sound _ _ _ _ _ E) as (mt & _ & Hm & _).
      exfalso; apply Hn; eapply matches_line_start; exact Hm.
    + f_equal; apply IH; exact Ht.
Qed.

Lemma no_line_sub (t : text) :
  no_line None t -> sub COMMENT_LINE_RE group1_repl t = t.
Proof.
  intros H; unfold sub; rewrite no_line_scan by exact H; apply expand_kept.
Qed.

Lemma Lin_closes prev s out : Lin prev s out -> closes out -> closes s.
Proof.
  induction 1 as [prev|prev c s out Hn Hl IH
                  |prev c body t pv out Hb Hu Hpv Hl IH
                  |prev body t pv out Hb Hu Hpv Hl IH]; intros Hc.
  - exact Hc.
  - inversion Hc as [u|c' u Hc']; subst.
    + destruct (Lin_head _ _ _ _ Hl eq_refl) as [s' ->]; constructor.
    + constructor; auto.
  - inversion Hc as [u|c' u Hc']; subst.
    + apply Lin_eol in Hl; [discriminate | exact Hu].
    + change (c :: "/" :: "/" :: body ++ t)%char
        with ((c :: "/" :: "/" :: body) ++ t)%char.
      apply closes_suffix; auto.
  - change ("/" :: "/" :: body ++ t)%char
      with (("/" :: "/" :: body) ++ t)%char.
    apply closes_suffix; auto.
Qed.

Lemma Lin_star prev s out :
  Lin prev s ("*"%char :: out) -> closes out ->
  exists s', s = "*"%char :: s' /\ closes s'.
Proof.
  intros H Hc; inversion H as [|? ? ? ? _ Hl|? ? ? ? ? ? _ Hu _ Hl
                               |? ? ? ? ? _ Hu _ Hl]; subst.
  - eexists; split; [reflexivity|]; eapply Lin_closes; eauto.
  - eexists; split; [reflexivity|].
    change ("/" :: "/" :: body ++ t)%char
      with (("/" :: "/" :: body) ++ t)%char.
    apply closes_suffix; eapply Lin_closes; eauto.
  - apply Lin_eol in Hl; [discriminate | exact Hu].
Qed.

Lemma Lin_has_block prev s out : Lin prev s out -> has_block out -> has_block s.
Proof.
  induction 1 as [prev|prev c s out Hn Hl IH
                  |prev c body t pv out Hb Hu Hpv Hl IH
                  |prev body t pv out Hb Hu Hpv Hl IH]; intros Hh.
  - exact Hh.
  - inversion Hh as [s0 (u & Hs & Hc)|c' s0 Hs]; subst.
    + injection Hs as -> ->.
      destruct (Lin_star _ _ _ Hl Hc) as (s' & -> & Hc').
      constructor; exists s'; auto.
    + apply has_block_later; auto.
  - inversion Hh as [s0 (u & Hs & Hc)|c' s0 Hs]; subst.
    + injection Hs as -> ->.
      apply Lin_eol in Hl; [discriminate | exact Hu].
    + change (c :: "/" :: "/" :: body ++ t)%char
        with ((c :: "/" :: "/" :: body) ++ t)%char.
      apply has_block_suffix; auto.
  - change ("/" :: "/" :: body ++ t)%char
      with (("/" :: "/" :: body) ++ t)%char.
    apply has_block_suffix; auto.
Qed.

(** C6.  Stripping the comments of a text that [strip_comments] returned
    changes nothing. *)
Theorem strip_comments_idempotent (s : text) :
  strip_comments (strip_comments s) = strip_comments s.
Proof.
  unfold strip_comments.
  set (b := sub COMMENT_BLOCK_RE (const_repl " ") s).
  set (l := sub COMMENT_LINE_RE group1_repl b).
  assert (Hb : ~ has_block b) by (eapply Blk_clean, block_sub_Blk).
  assert (Hl : Lin None b l) by apply line_sub_Lin.
  rewrite clean_block_sub.
  - apply no_line_sub; eapply Lin_no_line; exact Hl.
  - intros H; apply Hb; eapply Lin_has_block; eauto.
Qed.

(** * Further properties *)

(** ** The classifier *)

Lemma endswith_app (p s : text) :
  endswith p s = true <-> exists x, s = x ++ p.
Proof.
  unfold endswith; rewrite startswith_app; split.
  - intros [t Ht]; exists (rev t).
    apply (f_equal (@rev ascii)) in Ht.
    now rewrite rev_involutive, rev_app_distr, rev_involutive in Ht.
  - intros [x ->]; exists (rev x); apply rev_app_distr.
Qed.

Lemma plain_digits_same_filter (s : text) :
  plain_digits s = true -> filter isdigit s = filter isdecimal s.
Proof.
  unfold plain_digits; induction s as [|c s IH]; [reflexivity|].
  cbn [forallb filter]; rewrite andb_true_iff; intros [Hc Hs].
  rewrite (IH Hs).
  destruct (isdigit c) eqn:E1, (isdecimal c) eqn:E2; try reflexivity;
    try discriminate.
  unfold isdigit in E1; rewrite E2 in E1; discriminate.
Qed.

Lemma is_empty_false (s : text) : s <> [] -> is_empty s = false.
Proof. destruct s; [congruence | reflexivity]. Qed.

(** What the digit test of the [_t] rules gives. *)
Lemma wider_than_32_spec (type_name : text) :
  wider_than_32 (canonical_form type_name)
  = if convertible_digits type_name
    then Ok (32 <? embedded_number type_name)%Z
    else ValueError.
Proof.
  unfold wider_than_32, int_of, embedded_number, convertible_digits.
  destruct (digits_of_canonical type_name) as [-> _].
  rewrite plain_digits_filter.
  destruct (plain_digits type_name) eqn:Hp; cbn [negb andb orb].
  - rewrite <- (plain_digits_same_filter _ Hp).
    rewrite orb_false_r, Z.leb_antisym.
    destruct (filter isdigit type_name) eqn:E; [reflexivity|].
    cbn [is_empty orb].
    destruct (int_max_str_digits <? Z.of_nat (length (a :: l)))%Z;
      reflexivity.
  - rewrite orb_true_r.
    destruct (filter isdigit type_name) eqn:E; [|reflexivity].
    rewrite <- plain_digits_filter, E in Hp; discriminate.
Qed.

Lemma map_native_type_undecided (type_name : text) (enum_types : str_set) :
  undecided type_name enum_types ->
  map_native_type type_name enum_types
  = if endswith (txt "_t") (canonical_form type_name) then
      wide <- wider_than_32 (canonical_form type_name) ;;
      Ok (txt (if startswith (txt "u") (canonical_form type_name)
               then (if wide then "uint64" else "uint")
               else (if wide then "int64" else "int")))
    else Ok (txt "pointer").
Proof.
  intros (Hne & Hs & Hb & He & Hn & Hg & Hp).
  unfold map_native_type; fold (canonical_form type_name).
  rewrite (is_empty_false _ Hne), Hs, Hb, He, Hn, Hg, Hp.
  cbn [orb].
  destruct (endswith (txt "_t") (canonical_form type_name)) eqn:Et;
    [|reflexivity].
  apply endswith_app in Et; destruct Et as [x Hx]; rewrite Hx.
  rewrite length_app, Nat.add_sub, firstn_app, firstn_all, Nat.sub_diag.
  cbn [firstn]; rewrite app_nil_r.
  replace (startswith (txt "u") (x ++ txt "_t")) with (startswith (txt "u") x)
    by (destruct x; reflexivity).
  cbn [andb].
  destruct (startswith (txt "u") x); reflexivity.
Qed.

Lemma map_native_type_decided (type_name : text) (enum_types : str_set) :
  ~ undecided type_name enum_types ->
  exists c, map_native_type type_name enum_types = Ok c /\ In c categories.
Proof.
  intros Hu; unfold map_native_type; fold (canonical_form type_name).
  assert (Hc : forall s, is_category (txt s) = true ->
               exists c, Ok (txt s) = Ok c /\ In c categories)
    by (intros s Hs; exists (txt s); split; [reflexivity | now apply mem_In]).
  destruct (is_empty type_name) eqn:Hemp; [now apply Hc|].
  assert (Hne : type_name <> []) by (intros ->; discriminate).
  destruct (contains "*" type_name) eqn:Hs; [now apply Hc|].
  destruct (endswith (txt "]") type_name) eqn:Hb; [now apply Hc|].
  cbn [orb].
  destruct (mem type_name enum_types) eqn:He; [now apply Hc|].
  destruct (lookup (canonical_form type_name) NUMBER_TYPE_MAP) as [v|] eqn:E1.
  { exists v; split; [reflexivity|].
    eapply table_values; [|exact E1]; reflexivity. }
  destruct (lookup (canonical_form type_name) GENERIC_INT_ALIASES)
    as [v|] eqn:E2.
  { exists v; split; [reflexivity|].
    eapply table_values; [|exact E2]; reflexivity. }
  destruct (mem (canonical_form type_name) POINTER_SIZED_INTS) eqn:Hp.
  { destruct (startswith (txt "u") (canonical_form type_name)
              || startswith (txt "gsize") (canonical_form type_name));
      now apply Hc. }
  exfalso; apply Hu; repeat split; assumption.
Qed.

Lemma undecided_dec (type_name : text) (enum_types : str_set) :
  undecided type_name enum_types \/ ~ undecided type_name enum_types.
Proof.
  unfold undecided.
  destruct type_name as [|c0 t0] eqn:Ety; [right; intros [H _]; congruence|].
  rewrite <- Ety; assert (Hne : type_name <> []) by (rewrite Ety; discriminate).
  clear Ety.
  destruct (contains "*" type_name); [right; intros H; decompose [and] H; discriminate|].
  destruct (endswith (txt "]") type_name); [right; intros H; decompose [and] H; discriminate|].
  destruct (mem type_name enum_types); [right; intros H; decompose [and] H; discriminate|].
  destruct (lookup (canonical_form type_name) NUMBER_TYPE_MAP);
    [right; intros H; decompose [and] H; discriminate|].
  destruct (lookup (canonical_form type_name) GENERIC_INT_ALIASES);
    [right; intros H; decompose [and] H; discriminate|].
  destruct (mem (canonical_form type_name) POINTER_SIZED_INTS);
    [right; intros H; decompose [and] H; discriminate|].
  left; repeat split; auto.
Qed.

Lemma returned_category (type_name : text) (enum_types : str_set) (c : text) :
  map_native_type type_name enum_types = Ok c -> In c categories.
Proof.
  destruct (undecided_dec type_name enum_types) as [Hu|Hu].
  - rewrite (map_native_type_undecided _ _ Hu), wider_than_32_spec.
    destruct (endswith (txt "_t") (canonical_form type_name));
      [|intros [= <-]; apply mem_In; reflexivity].
    destruct (convertible_digits type_name); cbn [bind]; [|discriminate].
    destruct (startswith (txt "u") (canonical_form type_name)),
      (32 <? embedded_number type_name)%Z;
      intros [= <-]; apply mem_In; reflexivity.
  - destruct (map_native_type_decided _ _ Hu) as (c' & Hc & Hin).
    rewrite Hc; intros [= <-]; exact Hin.
Qed.



(** X2.  On a name that no rule before the [_t] tests decides and whose
    digit characters [int()] converts (all decimal, no more than the
    interpreter's limit), the [_t] rule gives [uint] or [int] according
    to whether the canonical form starts with [u], with [64] appended
    when the number its digits spell exceeds 32; without the [_t] suffix
    the name is a [pointer]. *)
Theorem suffix_rule (type_name : text) (enum_types : str_set) :
  undecided type_name enum_types ->
  convertible_digits type_name = true ->
  map_native_type type_name enum_types
  = Ok (if endswith (txt "_t") (canonical_form type_name) then
          (if startswith (txt "u") (canonical_form type_name)
           then txt "uint" else txt "int")
          ++ (if (32 <? embedded_number type_name)%Z then txt "64" else [])
        else txt "pointer").
Proof.
  intros Hu Hp.
  rewrite (map_native_type_undecided _ _ Hu), wider_than_32_spec, Hp.
  destruct (endswith (txt "_t") (canonical_form type_name)); [|reflexivity].
  cbn [bind].
  destruct (startswith (txt "u") (canonical_form type_name)),
    (32 <? embedded_number type_name)%Z; reflexivity.
Qed.

Lemma suffix_rule_witness :
  map_native_type (txt "UInt16_T") [txt "Color"] = Ok (txt "uint")
  /\ map_native_type (txt "int_least64_t") [] = Ok (txt "int64").
Proof.
  split.
  - apply (suffix_rule (txt "UInt16_T") [txt "Color"]);
      [repeat split; try reflexivity; discriminate | reflexivity].
  - apply (suffix_rule (txt "int_least64_t") []);
      [repeat split; try reflexivity; discriminate | reflexivity].
Defined.

(** X3.  Outside the enum set the category depends on the name only
    through its canonical form: two non-empty names without [*] or a
    final bracket, neither of them an enum, that differ only in case and
    spaces are classified alike. *)
Theorem classification_by_canonical_form (a b : text) (enum_types : str_set) :
  a <> [] -> b <> [] ->
  contains "*" a = false -> contains "*" b = false ->
  endswith (txt "]") a = false -> endswith (txt "]") b = false ->
  mem a enum_types = false -> mem b enum_types = false ->
  canonical_form a = canonical_form b ->
  map_native_type a enum_types = map_native_type b enum_types.
Proof.
  intros Ha Hb Hsa Hsb Hba Hbb Hea Heb Hc.
  unfold map_native_type; fold (canonical_form a) (canonical_form b).
  rewrite (is_empty_false _ Ha), (is_empty_false _ Hb).
  rewrite Hsa, Hsb, Hba, Hbb, Hea, Heb, Hc; reflexivity.
Qed.

Lemma classification_by_canonical_form_witness :
  map_native_type (txt "Unsigned  Long") []
  = map_native_type (txt "unsignedlong") [].
Proof.
  apply classification_by_canonical_form;
    try reflexivity; discriminate.
Defined.

(** X4.  The last test of [map_native_type] on [POINTER_SIZED_INTS]
    never decides a name: the function without it returns the same on
    every name and enum set. *)
Theorem last_pointer_sized_test_is_dead (type_name : text)
  (enum_types : str_set) :
  map_native_type type_name enum_types
  = map_native_type_without_last_test type_name enum_types.
Proof.
  unfold map_native_type, map_native_type_without_last_test.
  destruct (is_empty type_name); [reflexivity|].
  destruct (contains "*" type_name || endswith (txt "]") type_name);
    [reflexivity|].
  cbv zeta.
  destruct (mem type_name enum_types); [reflexivity|].
  destruct (lookup _ NUMBER_TYPE_MAP); [reflexivity|].
  destruct (lookup _ GENERIC_INT_ALIASES); [reflexivity|].
  destruct (mem _ POINTER_SIZED_INTS) eqn:E; reflexivity.
Qed.

(** ** The comment stripper *)

(** X5.  What [strip_comments] returns holds no block comment (no [/*]
    with a [*/] after it) and no line comment (no [//] at the start of a
    line or after a character other than a colon). *)
Theorem strip_comments_leaves_no_comment (s : text) :
  ~ has_block (strip_comments s) /\ no_line None (strip_comments s).
Proof.
  unfold strip_comments.
  set (b := sub COMMENT_BLOCK_RE (const_repl " ") s).
  assert (Hl : Lin None b (sub COMMENT_LINE_RE group1_repl b))
    by apply line_sub_Lin.
  split.
  - intros H; eapply Blk_clean; [apply (block_sub_Blk s)|].
    eapply Lin_has_block; eauto.
  - eapply Lin_no_line; exact Hl.
Qed.

Lemma closes_slash (t : text) : closes t -> contains "/" t = true.
Proof.
  induction 1 as [t|c t _ IH]; simpl; [|rewrite IH]; auto using orb_true_r.
Qed.

Lemma has_block_slash (t : text) : has_block t -> contains "/" t = true.
Proof.
  induction 1 as [s (t & -> & _)|c s _ IH]; simpl;
    [reflexivity | rewrite IH; apply orb_true_r].
Qed.

Lemma no_slash_no_line (t : text) : forall prev,
  contains "/" t = false -> no_line prev t.
Proof.
  induction t as [|c t IH]; intros prev H; simpl; [exact I|].
  simpl in H; apply orb_false_iff in H; destruct H as [Hc Ht].
  split; [|now apply IH].
  intros [(c' & u & Hs & _)|(_ & u & Hs)]; injection Hs as -> ->;
    discriminate.
Qed.

(** X6.  A text without a slash is returned as it is. *)
Theorem strip_comments_without_slash (s : text) :
  contains "/" s = false -> strip_comments s = s.
Proof.
  intros H; unfold strip_comments.
  rewrite clean_block_sub.
  - apply no_line_sub, no_slash_no_line; exact H.
  - intros Hb; apply has_block_slash in Hb; congruence.
Qed.

Lemma strip_comments_without_slash_witness :
  strip_comments (txt "typedef enum { RED } Color;")
  = txt "typedef enum { RED } Color;".
Proof. apply strip_comments_without_slash; reflexivity. Defined.

Lemma Blk_length s out : Blk s out -> length out <= length s.
Proof.
  induction 1; simpl; rewrite ?length_app; simpl; lia.
Qed.

Lemma Lin_length prev s out : Lin prev s out -> length out <= length s.
Proof.
  induction 1; simpl; rewrite ?length_app; simpl; lia.
Qed.

(** X7.  [strip_comments] never returns a longer text than it is given. *)
Theorem strip_comments_never_longer (s : text) :
  length (strip_comments s) <= length s.
Proof.
  unfold strip_comments.
  etransitivity; [eapply Lin_length, line_sub_Lin|].
  eapply Blk_length, block_sub_Blk.
Qed.

Lemma no_line_after_colon (pre rest : text) : forall prev,
  contains "/" pre = false -> contains "/" rest = false ->
  no_line prev (pre ++ ":" :: "/" :: "/" :: rest)%char.
Proof.
  induction pre as [|c pre IH]; intros prev Hp Hr; simpl.
  - split; [|split; [|split]];
      try (intros [(c' & u & Hs & Hc)|(Hb & u & Hs)];
           inversion Hs; subst; simpl in *; discriminate).
    apply no_slash_no_line; exact Hr.
  - simpl in Hp; apply orb_false_iff in Hp; destruct Hp as [Hc Hp].
    split; [|now apply IH].
    intros [(c' & u & Hs & _)|(_ & u & Hs)].
    + injection Hs as _ Hs.
      destruct pre as [|d pre]; simpl in Hs; [discriminate|].
      injection Hs as -> _; simpl in Hp; discriminate.
    + injection Hs as -> _; discriminate.
Qed.

Lemma no_block_after_colon (pre rest : text) :
  contains "/" pre = false -> contains "/" rest = false ->
  ~ has_block (pre ++ ":" :: "/" :: "/" :: rest)%char.
Proof.
  intros Hp Hr; induction pre as [|c pre IH]; simpl.
  - intros H.
    inversion H as [s (t & Ht & _)|c' s Hs]; subst; [discriminate|].
    inversion Hs as [s (t & Ht & _)|c' s Hs']; subst; [discriminate|].
    inversion Hs' as [s (t & Ht & Hc)|c' s Hs'']; subst.
    + injection Ht as ->.
      apply closes_slash in Hc; simpl in Hr; congruence.
    + apply has_block_slash in Hs''; congruence.
  - simpl in Hp; apply orb_false_iff in Hp; destruct Hp as [Hc Hp].
    intros H; inversion H as [s (t & Ht & _)|c' s Hs]; subst.
    + injection Ht as -> _; discriminate.
    + exact (IH Hp Hs).
Qed.

(** X8.  A [//] that directly follows a colon is kept: a text with no
    other slash than the two after the colon is returned as it is. *)
Theorem strip_comments_keeps_slashes_after_colon (pre rest : text) :
  contains "/" pre = false -> contains "/" rest = false ->
  strip_comments (pre ++ txt "://" ++ rest) = pre ++ txt "://" ++ rest.
Proof.
  intros Hp Hr; unfold strip_comments.
  change (pre ++ txt "://" ++ rest)
    with (pre ++ ":" :: "/" :: "/" :: rest)%char.
  rewrite clean_block_sub by (now apply no_block_after_colon).
  apply no_line_sub, no_line_after_colon; assumption.
Qed.

Lemma strip_comments_keeps_slashes_after_colon_witness :
  strip_comments (txt "see http://mono.example *docs*")
  = txt "see http://mono.example *docs*".
Proof.
  apply (strip_comments_keeps_slashes_after_colon
           (txt "see http") (txt "mono.example *docs*")); reflexivity.
Defined.

(** ** Splitting the parameter text *)

Lemma join_snoc (sep : text) (ps : list text) (c : text) :
  join sep (ps ++ [c]) = concat (map (fun p => p ++ sep) ps) ++ c.
Proof.
  induction ps as [|p ps IH]; [reflexivity|].
  change ((p :: ps) ++ [c]) with (p :: (ps ++ [c])).
  cbn [map concat].
  rewrite <- app_assoc, <- app_assoc, <- IH.
  destruct ps; reflexivity.
Qed.

Lemma join_all (sep : text) (ps : list text) :
  ps <> [] -> join sep ps ++ sep = concat (map (fun p => p ++ sep) ps).
Proof.
  intros H; destruct (exists_last H) as (qs & q & ->).
  rewrite join_snoc, map_app, concat_app; simpl.
  now rewrite app_nil_r, <- app_assoc.
Qed.


Lemma contains_cons (c d : ascii) (s : text) :
  contains c (d :: s) = Ascii.eqb c d || contains c s.
Proof. reflexivity. Qed.

Lemma contains_cons_false (c d : ascii) (s : text) :
  contains c (d :: s) = false ->
  Ascii.eqb d c = false /\ contains c s = false.
Proof.
  rewrite contains_cons, Ascii.eqb_sym; apply orb_false_iff.
Qed.

Lemma contains_app (c : ascii) (a b : text) :
  contains c (a ++ b) = contains c a || contains c b.
Proof. unfold contains; apply existsb_app. Qed.

Lemma split_params_cons ch more depth current params :
  split_params (ch :: more) depth current params
  = if Ascii.eqb ch "(" then
      split_params more (depth + 1)%Z (current ++ [ch]) params
    else if Ascii.eqb ch ")" then
      split_params more (depth - 1)%Z (current ++ [ch]) params
    else if Ascii.eqb ch "," && (depth =? 0)%Z then
      split_params more depth [] (params ++ [current])
    else split_params more depth (current ++ [ch]) params.
Proof. reflexivity. Qed.

Lemma split_params_rejoin (chars : text) : forall depth current params,
  let whole :=
    concat (map (fun p => p ++ txt ",") params) ++ current ++ chars in
  let fragments := split_params chars depth current params in
  join (txt ",") fragments = whole
  \/ join (txt ",") fragments ++ txt "," = whole.
Proof.
  induction chars as [|ch more IH]; intros depth current params; cbn zeta.
  - simpl split_params; rewrite app_nil_r.
    destruct current as [|c current]; cbn [is_empty].
    + rewrite app_nil_r.
      destruct params as [|p params]; [left; reflexivity|].
      right; apply join_all; discriminate.
    + left; apply join_snoc.
  - assert (Hkeep : forall d,
              join (txt ",") (split_params more d (current ++ [ch]) params)
              = concat (map (fun p => p ++ txt ",") params)
                ++ current ++ ch :: more
              \/ join (txt ",") (split_params more d (current ++ [ch]) params)
                 ++ txt ","
                 = concat (map (fun p => p ++ txt ",") params)
                   ++ current ++ ch :: more).
    { intros d; specialize (IH d (current ++ [ch]) params); cbn zeta in IH.
      rewrite <- app_assoc in IH; exact IH. }
    rewrite split_params_cons.
    destruct (Ascii.eqb ch "("); [apply Hkeep|].
    destruct (Ascii.eqb ch ")"); [apply Hkeep|].
    destruct (Ascii.eqb ch "," && (depth =? 0)%Z) eqn:E; [|apply Hkeep].
    apply andb_true_iff in E; destruct E as [E _].
    apply Ascii.eqb_eq in E; subst ch.
    specialize (IH depth [] (params ++ [current])); cbn zeta in IH.
    rewrite map_app, concat_app in IH; simpl in IH.
    rewrite app_nil_r, <- !app_assoc in IH; exact IH.
Qed.

(** X9.  The fragments [parse_parameters] splits a parameter text into,
    joined by commas, give the text back, or the text without its last
    comma: the split loses nothing but a comma that ends the text. *)
Theorem split_params_joined (text : text) :
  join (txt ",") (split_params text 0 [] []) = text
  \/ join (txt ",") (split_params text 0 [] []) ++ txt "," = text.
Proof. exact (split_params_rejoin text 0%Z [] []). Qed.

Lemma split_params_run (s : text) : forall rest depth current params,
  contains "(" s = false -> contains ")" s = false ->
  (depth =? 0)%Z = false \/ contains "," s = false ->
  split_params (s ++ rest) depth current params
  = split_params rest depth (current ++ s) params.
Proof.
  induction s as [|c s IH]; intros rest depth current params Ho Hc Hd.
  - now rewrite app_nil_r.
  - apply contains_cons_false in Ho, Hc.
    destruct Ho as [Ho1 Ho], Hc as [Hc1 Hc].
    cbn [app]; rewrite split_params_cons, Ho1, Hc1.
    assert (E : Ascii.eqb c "," && (depth =? 0)%Z = false).
    { destruct Hd as [Hd|Hd]; [rewrite Hd; apply andb_false_r|].
      apply contains_cons_false in Hd; destruct Hd as [-> _]; reflexivity. }
    rewrite E, IH; [now rewrite <- app_assoc | assumption | assumption |].
    destruct Hd as [Hd|Hd]; [left; exact Hd | right].
    apply contains_cons_false in Hd; tauto.
Qed.

(** X10.  Commas between a pair of parentheses do not split: a parameter
    text with one parenthesised part, and no comma outside it, is a
    single fragment. *)
Theorem split_params_keeps_parenthesised (before inner after : text) :
  contains "(" before = false -> contains ")" before = false ->
  contains "," before = false ->
  contains "(" inner = false -> contains ")" inner = false ->
  contains "(" after = false -> contains ")" after = false ->
  contains "," after = false ->
  split_params (before ++ txt "(" ++ inner ++ txt ")" ++ after) 0 [] []
  = [before ++ txt "(" ++ inner ++ txt ")" ++ after].
Proof.
  intros Hb1 Hb2 Hb3 Hi1 Hi2 Ha1 Ha2 Ha3.
  rewrite split_params_run by auto.
  change (txt "(" ++ inner ++ txt ")" ++ after)
    with ("("%char :: inner ++ ")"%char :: after).
  rewrite split_params_cons; cbn [Ascii.eqb Bool.eqb].
  rewrite split_params_run by (auto; left; reflexivity).
  rewrite split_params_cons; cbn [Ascii.eqb Bool.eqb].
  rewrite <- (app_nil_r after) at 1.
  rewrite split_params_run by auto.
  cbn [split_params app].
  rewrite <- !app_assoc; cbn [app].
  destruct (before ++ "("%char :: inner ++ ")"%char :: after) eqn:E;
    [destruct before; discriminate | reflexivity].
Qed.

Lemma split_params_keeps_parenthesised_witness :
  split_params (txt "void f" ++ txt "(" ++ txt "int, int" ++ txt ")"
                ++ txt " cb") 0 [] []
  = [txt "void f" ++ txt "(" ++ txt "int, int" ++ txt ")" ++ txt " cb"].
Proof.
  apply split_params_keeps_parenthesised; reflexivity.
Defined.

Lemma split_params_negative (s : text) : forall depth current params,
  (depth < 0)%Z -> contains "(" s = false ->
  split_params s depth current params
  = if is_empty (current ++ s) then params else params ++ [current ++ s].
Proof.
  induction s as [|c s IH]; intros depth current params Hd Ho.
  - cbn [split_params]; now rewrite app_nil_r.
  - apply contains_cons_false in Ho; destruct Ho as [Ho1 Ho].
    rewrite split_params_cons, Ho1.
    replace (depth =? 0)%Z with false by (symmetry; apply Z.eqb_neq; lia).
    rewrite andb_false_r.
    replace (current ++ c :: s) with ((current ++ [c]) ++ s)
      by now rewrite <- app_assoc.
    destruct (Ascii.eqb c ")"); apply IH; auto; lia.
Qed.

(** X11.  A closing parenthesis that nothing opened ends the splitting:
    when the parameter text starts with one and has no opening
    parenthesis, the whole text is one fragment, commas included. *)
Theorem split_params_after_stray_close (s : text) :
  contains "(" s = false ->
  split_params (")"%char :: s) 0 [] [] = [")"%char :: s].
Proof.
  intros H; rewrite split_params_cons; cbn [Ascii.eqb Bool.eqb].
  rewrite split_params_negative by (auto; lia); reflexivity.
Qed.

Lemma split_params_after_stray_close_witness :
  split_params (txt ") a, int b, int c") 0 [] [] = [txt ") a, int b, int c"].
Proof. apply (split_params_after_stray_close (txt " a, int b, int c")); reflexivity. Defined.

Lemma split_params_plain (s : text) : forall current params,
  contains "(" s = false -> contains ")" s = false ->
  Forall (fun p => contains "," p = false) params ->
  contains "," current = false ->
  Forall (fun p => contains "," p = false) (split_params s 0 current params).
Proof.
  induction s as [|c s IH]; intros current params Ho Hc Hp Hcur.
  - cbn [split_params]; destruct (is_empty current); [exact Hp|].
    apply Forall_app; split; [exact Hp | repeat constructor; exact Hcur].
  - apply contains_cons_false in Ho, Hc.
    destruct Ho as [Ho1 Ho], Hc as [Hc1 Hc].
    rewrite split_params_cons, Ho1, Hc1, andb_true_r.
    destruct (Ascii.eqb c ",") eqn:E.
    + apply IH; auto.
      apply Forall_app; split; [exact Hp | repeat constructor; exact Hcur].
    + apply IH; auto.
      rewrite contains_app, Hcur, contains_cons, Ascii.eqb_sym, E.
      reflexivity.
Qed.

(** X12.  In a parameter text without parentheses every comma splits: no
    fragment holds a comma. *)
Theorem split_params_without_parentheses (text : text) :
  contains "(" text = false -> contains ")" text = false ->
  Forall (fun p => contains "," p = false) (split_params text 0 [] []).
Proof.
  intros Ho Hc; apply split_params_plain; auto.
Qed.

Lemma split_params_without_parentheses_witness :
  Forall (fun p => contains "," p = false)
    (split_params (txt "int a, char *b, ...") 0 [] []).
Proof. apply split_params_without_parentheses; reflexivity. Defined.

(** X13.  [parse_parameters] never returns an empty type, and never more
    types than the text has top-level fragments. *)
Theorem parse_parameters_types_not_empty (text : text) :
  Forall (fun type_part => type_part <> []) (parse_parameters text)
  /\ length (parse_parameters text) <= length (split_params text 0 [] []).
Proof.
  unfold parse_parameters.
  destruct (text_eqb text (txt "") || text_eqb text (txt "void"));
    [split; [constructor | simpl; lia]|].
  rewrite normalize_params_flat; simpl.
  induction (split_params text 0 [] []) as [|f l [IH1 IH2]];
    [split; [constructor | simpl; lia]|].
  simpl; destruct (param_type f) as [t|] eqn:E; simpl.
  - split; [constructor; [|exact IH1] | lia].
    unfold param_type in E.
    destruct (is_empty (strip f) || text_eqb (strip f) (txt "void"));
      [discriminate|].
    destruct (text_eqb (param_text (strip f)) (txt "...")); [discriminate|].
    match type of E with
    | (if is_empty ?x then _ else _) = _ =>
        destruct x; [discriminate | injection E as <-; discriminate]
    end.
  - split; [exact IH1 | lia].
Qed.

(** ** Counting characters

    Every function of the script builds its results from characters of
    its argument, spaces and stars, using each character of the argument
    at most once: a result never has more characters of a kind than the
    argument, when spaces and stars are not of that kind. *)

Lemma scan_zero r prev (s : text) :
  scan r 0 prev s
  = let keep := match s with
                | c :: s' => Kept c :: scan r 0 (Some c) s'
                | [] => []
                end in
    let skip n := match s with
                  | c :: s' => scan r n (Some c) s'
                  | [] => []
                  end in
    match match_at r false prev s with
    | None => keep
    | Some m =>
        Hit (group1 m) ::
        match width s m with
        | S n => skip n
        | 0 =>
            match match_at r true prev s with
            | Some m' => Hit (group1 m') :: skip (width s m' - 1)
            | None => keep
            end
        end
    end.
Proof. destruct s; reflexivity. Qed.

Lemma list_sum_cons (a : nat) (l : list nat) :
  list_sum (a :: l) = a + list_sum l.
Proof. reflexivity. Qed.

Section Counting.
Variable q : ascii -> bool.

Lemma count_app (a b : text) :
  count_of q (a ++ b) = count_of q a + count_of q b.
Proof. unfold count_of; now rewrite filter_app, length_app. Qed.

Lemma count_cons (c : ascii) (s : text) :
  count_of q (c :: s) = count_of q [c] + count_of q s.
Proof. apply (count_app [c] s). Qed.

Lemma count_rev (s : text) : count_of q (rev s) = count_of q s.
Proof.
  induction s as [|c s IH]; [reflexivity|].
  simpl rev; rewrite count_app, IH, (count_cons c s); lia.
Qed.

Lemma count_firstn (n : nat) (s : text) :
  count_of q (firstn n s) <= count_of q s.
Proof.
  rewrite <- (firstn_skipn n s) at 2; rewrite count_app; lia.
Qed.

Lemma count_lstrip (s : text) : count_of q (lstrip s) <= count_of q s.
Proof.
  induction s as [|c s IH]; simpl; [lia|].
  destruct (isspace c); [rewrite (count_cons c s); lia | lia].
Qed.

Lemma count_strip (s : text) : count_of q (strip s) <= count_of q s.
Proof.
  unfold strip, rstrip; rewrite count_rev.
  etransitivity; [apply count_lstrip|].
  rewrite count_rev; apply count_lstrip.
Qed.

Lemma Matches_count r prev s g pv t g' :
  Matches r prev s g pv t g' ->
  count_of q t <= count_of q s
  /\ count_of q (group_text g')
     <= Nat.max (count_of q (group_text g)) (count_of q s).
Proof.
  induction 1 as [l prev t g|p prev c t g Hc|lz pl p prev run t g Hr Hne
                  |a b prev s g pv1 t1 g1 pv2 t2 g2 _ IHa _ IHb
                  |a b prev s g pv t g' _ IH|a b prev s g pv t g' _ IH
                  |a prev s g pv t g' _ IH
                  |prev s g Hb|prev s g Hb|prev s g Hb|prev s g Hb];
    try (split; lia); try exact IH.
  - rewrite count_app; lia.
  - rewrite (count_cons c t); lia.
  - rewrite count_app; lia.
  - split; [tauto|].
    cbn [group_text].
    pose proof (count_firstn (length s - length t) s); lia.
Qed.

Lemma match_at_count r adv prev s m :
  match_at r adv prev s = Some m ->
  count_of q (group_text (group1 m)) <= count_of q s.
Proof.
  intros H; destruct (match_at_sound _ _ _ _ _ H) as (mt & _ & Hm & _).
  apply Matches_count in Hm; cbn [group_text] in Hm.
  change (count_of q []) with 0 in Hm; lia.
Qed.

Lemma scan_const_count r (t : string) :
  count_of q (txt t) = 0 ->
  forall s skip prev,
    count_of q (expand (const_repl t) (scan r skip prev s)) <= count_of q s.
Proof.
  intros Ht.
  assert (Hhit : forall g l,
             count_of q (expand (const_repl t) (Hit g :: l))
             = count_of q (expand (const_repl t) l)).
  { intros g l; cbn [expand flat_map]; rewrite count_app.
    unfold const_repl; rewrite Ht; reflexivity. }
  assert (Hkept : forall c l,
             count_of q (expand (const_repl t) (Kept c :: l))
             = count_of q [c] + count_of q (expand (const_repl t) l)).
  { intros c l; cbn [expand flat_map]; apply count_app. }
  induction s as [|c s IH]; intros skip prev.
  - destruct skip; [|cbn; lia].
    rewrite scan_zero; cbv zeta.
    destruct (match_at r false prev []); [|cbn; lia].
    rewrite Hhit.
    destruct (width [] _); [|cbn; lia].
    destruct (match_at r true prev []); [rewrite Hhit|]; cbn; lia.
  - rewrite (count_cons c s).
    destruct skip; [|cbn [scan]; specialize (IH skip (Some c)); lia].
    rewrite scan_zero; cbv zeta.
    destruct (match_at r false prev (c :: s)) as [m|].
    + rewrite Hhit.
      destruct (width (c :: s) m) as [|n];
        [|specialize (IH n (Some c)); lia].
      destruct (match_at r true prev (c :: s)) as [m'|].
      * rewrite Hhit.
        specialize (IH (width (c :: s) m' - 1) (Some c)); lia.
      * rewrite Hkept; specialize (IH 0 (Some c)); lia.
    + rewrite Hkept; specialize (IH 0 (Some c)); lia.
Qed.

Lemma sub_const_count r (t : string) (s : text) :
  count_of q (txt t) = 0 ->
  count_of q (sub r (const_repl t) s) <= count_of q s.
Proof. intros Ht; apply (scan_const_count r t Ht s 0 None). Qed.

Lemma scan_captured_count r (n : nat) : forall s skip prev,
  count_of q s <= n ->
  Forall (fun g => count_of q g <= n) (captured (scan r skip prev s)).
Proof.
  assert (Hm : forall adv prev s m,
             count_of q s <= n -> match_at r adv prev s = Some m ->
             count_of q (group_text (group1 m)) <= n).
  { intros adv prev s m Hs H; apply match_at_count in H; lia. }
  induction s as [|c s IH]; intros skip prev Hs.
  - destruct skip; [|constructor].
    rewrite scan_zero; cbv zeta.
    destruct (match_at r false prev []) as [m|] eqn:E; [|constructor].
    cbn [captured flat_map app]; constructor; [eauto|].
    destruct (width [] m); [|constructor].
    destruct (match_at r true prev []) as [m'|] eqn:E'; [|constructor].
    cbn [flat_map app]; constructor; [eauto | constructor].
  - assert (Hs' : count_of q s <= n) by (rewrite (count_cons c s) in Hs; lia).
    destruct skip; [|cbn [scan]; now apply IH].
    rewrite scan_zero; cbv zeta.
    destruct (match_at r false prev (c :: s)) as [m|] eqn:E;
      [|cbn [captured flat_map app]; now apply IH].
    cbn [captured flat_map app]; constructor; [eauto|].
    destruct (width (c :: s) m); [|now apply IH].
    destruct (match_at r true prev (c :: s)) as [m'|] eqn:E';
      [|cbn [flat_map app]; now apply IH].
    cbn [flat_map app]; constructor; [eauto | now apply IH].
Qed.

Lemma finditer_count r (s : text) :
  Forall (fun g => count_of q g <= count_of q s) (finditer r s).
Proof. apply (scan_captured_count r (count_of q s) s 0 None); lia. Qed.

Lemma search_from_count r (s : text) : forall start prev n g,
  search_from r start prev s = Some (n, g) -> count_of q g <= count_of q s.
Proof.
  induction s as [|c s IH]; intros start prev n g; simpl.
  - destruct (match_at r false prev []) as [m|] eqn:E; [|discriminate].
    intros [= _ <-]; eapply match_at_count; eauto.
  - destruct (match_at r false prev (c :: s)) as [m|] eqn:E.
    + intros [= _ <-]; eapply match_at_count; eauto.
    + intros H; apply IH in H; rewrite (count_cons c s); lia.
Qed.

Lemma split_first_count (c : ascii) (s : text) :
  count_of q (fst (split_first c s)) + count_of q (snd (split_first c s))
  <= count_of q s.
Proof.
  induction s as [|d s IH]; simpl; [lia|].
  rewrite (count_cons d s).
  destruct (Ascii.eqb c d); simpl; [change (count_of q []) with 0; lia|].
  destruct (split_first c s) as [b a]; simpl in *.
  rewrite (count_cons d b); lia.
Qed.

Lemma rsplit_head_count (c : ascii) (s : text) :
  count_of q (rsplit_head c s) <= count_of q s.
Proof.
  unfold rsplit_head; destruct (contains c s); [|lia].
  rewrite count_rev.
  pose proof (split_first_count c (rev s)) as H.
  rewrite count_rev in H; lia.
Qed.

Lemma split_count (c : ascii) (s : text) :
  list_sum (map (count_of q) (split c s)) <= count_of q s.
Proof.
  induction s as [|d s IH]; simpl; [cbn; lia|].
  rewrite (count_cons d s).
  destruct (Ascii.eqb c d);
    [cbn [map]; rewrite ?list_sum_cons; change (count_of q []) with 0; lia|].
  destruct (split c s) as [|t ts]; cbn [map] in *; rewrite ?list_sum_cons in *.
  - lia.
  - rewrite (count_cons d t); lia.
Qed.

Lemma join_count (sep : text) (parts : list text) :
  count_of q sep = 0 ->
  count_of q (join sep parts) = list_sum (map (count_of q) parts).
Proof.
  intros Hsep; induction parts as [|t ts IH]; [reflexivity|].
  cbn [map]; rewrite ?list_sum_cons; rewrite <- IH.
  destruct ts; [cbn [join]; change (count_of q []) with 0; lia|].
  cbn [join]; rewrite !count_app, Hsep; reflexivity.
Qed.

Lemma removelast_count (l : list text) :
  list_sum (map (count_of q) (removelast l))
  <= list_sum (map (count_of q) l).
Proof.
  induction l as [|t ts IH]; [simpl; lia|].
  destruct ts; [cbn; lia|].
  change (removelast (t :: t0 :: ts)) with (t :: removelast (t0 :: ts)).
  cbn [map] in *; rewrite ?list_sum_cons in *; lia.
Qed.

Lemma Blk_count s out :
  q " "%char = false -> Blk s out -> count_of q out <= count_of q s.
Proof.
  intros Hq; induction 1 as [|c s out _ _ IH|body t out _ IH]; [lia| |].
  - rewrite (count_cons c s), (count_cons c out); lia.
  - rewrite (count_cons " "%char out), (count_cons "/"%char),
      (count_cons "*"%char (body ++ _)).
    rewrite count_app, (count_cons "*"%char ("/"%char :: t)),
      (count_cons "/"%char t).
    replace (count_of q [" "%char]) with 0; [lia|].
    unfold count_of; cbn [filter]; now rewrite Hq.
Qed.

Lemma Lin_count prev s out :
  Lin prev s out -> count_of q out <= count_of q s.
Proof.
  induction 1 as [prev|prev c s out _ _ IH
                  |prev c body t pv out _ _ _ _ IH
                  |prev body t pv out _ _ _ _ IH]; [lia| | |].
  - rewrite (count_cons c s), (count_cons c out); lia.
  - rewrite (count_cons c out), (count_cons c ("/" :: _)%char).
    change ("/" :: "/" :: body ++ t)%char
      with (("/" :: "/" :: body) ++ t)%char.
    rewrite (count_app _ t); lia.
  - change ("/" :: "/" :: body ++ t)%char
      with (("/" :: "/" :: body) ++ t)%char.
    rewrite (count_app _ t); lia.
Qed.

Hypothesis q_space : q " "%char = false.
Hypothesis q_star : q "*"%char = false.

Lemma count_space : count_of q (txt " ") = 0.
Proof. unfold count_of; cbn [txt list_ascii_of_string filter]; now rewrite q_space. Qed.

Lemma count_star : count_of q (txt "*") = 0.
Proof. unfold count_of; cbn [txt list_ascii_of_string filter]; now rewrite q_star. Qed.

Lemma count_empty : count_of q (txt "") = 0.
Proof. reflexivity. Qed.

Ltac count_chain :=
  repeat first
    [ apply Nat.le_refl
    | eapply Nat.le_trans;
      [first [ apply count_strip
             | apply sub_const_count;
               first [apply count_space | apply count_star
                     | apply count_empty] ]|] ].

Lemma strip_comments_count (s : text) :
  count_of q (strip_comments s) <= count_of q s.
Proof.
  unfold strip_comments.
  etransitivity; [eapply Lin_count, line_sub_Lin|].
  eapply Blk_count; [exact q_space | apply block_sub_Blk].
Qed.

Lemma declaration_text_count (s : text) :
  count_of q (declaration_text s) <= count_of q s.
Proof. unfold declaration_text; count_chain. Qed.

Lemma normalize_type_count (s : text) :
  count_of q (normalize_type s) <= count_of q s.
Proof. unfold normalize_type; count_chain. Qed.

Lemma param_text_count (s : text) :
  count_of q (param_text s) <= count_of q s.
Proof. unfold param_text; count_chain. Qed.

Lemma param_type_count (param t : text) :
  param_type param = Some t -> count_of q t <= count_of q param.
Proof.
  unfold param_type; intros H.
  destruct (is_empty (strip param) || text_eqb (strip param) (txt "void"));
    [discriminate|].
  destruct (text_eqb (param_text (strip param)) (txt "..."));
    [discriminate|].
  match type of H with
  | (if is_empty ?x then _ else _) = _ =>
      assert (Hx : count_of q x <= count_of q param);
        [|destruct x; [discriminate|]; injection H as <-; exact Hx]
  end.
  etransitivity; [apply sub_const_count, count_star|].
  etransitivity; [apply count_strip|].
  rewrite join_count by apply count_space.
  pose proof (split_count " " (param_text (strip param))) as Hs.
  pose proof (param_text_count (strip param)) as Hp.
  pose proof (count_strip param) as Ht.
  pose proof (removelast_count (split " " (param_text (strip param)))) as Hr.
  destruct (1 <? length _); lia.
Qed.

Lemma split_params_count (n : nat) (s : text) : forall depth current params,
  count_of q current + count_of q s <= n ->
  Forall (fun p => count_of q p <= n) params ->
  Forall (fun p => count_of q p <= n) (split_params s depth current params).
Proof.
  induction s as [|c s IH]; intros depth current params Hn Hp.
  - cbn [split_params]; destruct (is_empty current); [exact Hp|].
    apply Forall_app; split; [exact Hp | repeat constructor].
    change (count_of q []) with 0 in Hn; lia.
  - rewrite (count_cons c s) in Hn.
    assert (Hcur : count_of q (current ++ [c]) + count_of q s <= n)
      by (rewrite count_app; lia).
    rewrite split_params_cons.
    destruct (Ascii.eqb c "("); [now apply IH|].
    destruct (Ascii.eqb c ")"); [now apply IH|].
    destruct (Ascii.eqb c "," && (depth =? 0)%Z); [|now apply IH].
    apply IH; [change (count_of q []) with 0; lia|].
    apply Forall_app; split; [exact Hp | repeat constructor; lia].
Qed.

Lemma parse_parameters_count (s : text) :
  Forall (fun t => count_of q t <= count_of q s) (parse_parameters s).
Proof.
  unfold parse_parameters.
  destruct (text_eqb s (txt "") || text_eqb s (txt "void")); [constructor|].
  rewrite normalize_params_flat; simpl.
  assert (H : Forall (fun p => count_of q p <= count_of q s)
                (split_params s 0 [] []))
    by (apply split_params_count; [cbn; lia | constructor]).
  induction H as [|f l Hf _ IH]; simpl; [constructor|].
  destruct (param_type f) as [t|] eqn:E; [|exact IH].
  constructor; [apply param_type_count in E; lia | exact IH].
Qed.

Lemma parse_function_declaration_count (declaration : text)
  (fd : FunctionDecl) :
  parse_function_declaration declaration = Some fd ->
  types_within q (count_of q declaration) fd.
Proof.
  unfold parse_function_declaration, types_within; intros H.
  pose proof (declaration_text_count declaration) as Ht.
  destruct (negb (contains "(" (declaration_text declaration))
            || negb (contains ")" (declaration_text declaration)));
    [discriminate|].
  pose proof (split_first_count "(" (declaration_text declaration)) as Hs.
  destruct (split_first "(" (declaration_text declaration)) as [bp tail].
  simpl in Hs.
  destruct (search NAME_RE (strip bp)) as [[n id]|]; [|discriminate].
  destruct (is_empty (strip (firstn n (strip bp)))); [discriminate|].
  injection H as <-; simpl; split.
  - pose proof (count_strip (firstn n (strip bp))).
    pose proof (count_firstn n (strip bp)).
    pose proof (count_strip bp); lia.
  - eapply Forall_impl; [|apply parse_parameters_count].
    intros t Hc; simpl in Hc.
    pose proof (count_strip (rsplit_head ")" tail)).
    pose proof (rsplit_head_count ")" tail); lia.
Qed.

Lemma parse_functions_count (n : nat) (source : text) :
  count_of q source <= n ->
  Forall (types_within q n) (parse_functions source).
Proof.
  intros Hn; unfold parse_functions.
  pose proof (finditer_count FUNCTION_PATTERN source) as H.
  induction H as [|d l Hd _ IH]; simpl; [constructor|].
  destruct (parse_function_declaration d) as [fd|] eqn:E; [|exact IH].
  constructor; [|exact IH].
  apply parse_function_declaration_count in E.
  destruct E as [Hr Hp]; split; [lia|].
  eapply Forall_impl; [|exact Hp]; intros t Hc; simpl in Hc; lia.
Qed.
End Counting.

(** ** The run *)

Lemma plain_digits_count (s : text) :
  plain_digits s = true <-> count_of improper_digit s = 0.
Proof.
  unfold plain_digits, count_of, improper_digit.
  induction s as [|c s IH]; simpl; [tauto|].
  destruct (isdigit c), (isdecimal c); simpl; try exact IH.
  split; discriminate.
Qed.

Lemma convertible_digits_count (s : text) :
  convertible_digits s = true
  <-> count_of improper_digit s = 0
      /\ (Z.of_nat (count_of isdigit s) <= int_max_str_digits)%Z.
Proof.
  unfold convertible_digits.
  rewrite andb_true_iff, plain_digits_count, Z.leb_le; reflexivity.
Qed.

Lemma map_result_ok {A B : Type} (f : A -> result B) (l : list A) :
  Forall (fun a => exists b, f a = Ok b) l -> exists bs, map_result f l = Ok bs.
Proof.
  induction 1 as [|a l [b Hb] _ [bs Hbs]]; simpl; [eexists; reflexivity|].
  rewrite Hb; simpl; rewrite Hbs; simpl; eexists; reflexivity.
Qed.

Lemma map_result_Forall {A B : Type} (f : A -> result B) (P : B -> Prop)
  (l : list A) (bs : list B) :
  (forall a b, f a = Ok b -> P b) -> map_result f l = Ok bs -> Forall P bs.
Proof.
  intros Hf; revert bs; induction l as [|a l IH]; intros bs; simpl.
  - intros [= <-]; constructor.
  - destruct (f a) as [b|] eqn:E; simpl; [|discriminate].
    destruct (map_result f l) as [bs'|]; simpl; [|discriminate].
    intros [= <-]; constructor; eauto.
Qed.

Lemma mapped_signature_ok (E : str_set) (n : nat) (d : FunctionDecl) :
  (Z.of_nat n <= int_max_str_digits)%Z ->
  types_within improper_digit 0 d -> types_within isdigit n d ->
  exists s, mapped_signature E d = Ok s.
Proof.
  intros Hn [Hr0 Hp0] [Hr Hp]; unfold mapped_signature.
  assert (Hc : forall t,
             count_of improper_digit t <= 0 -> count_of isdigit t <= n ->
             exists c, map_native_type (normalize_type t) E = Ok c).
  { intros t H0 H1.
    destruct (map_native_type_category (normalize_type t) E) as (c & Hc & _);
      [|eauto].
    apply convertible_digits_count.
    pose proof (normalize_type_count improper_digit eq_refl eq_refl t).
    pose proof (normalize_type_count isdigit eq_refl eq_refl t).
    split; lia. }
  destruct (Hc _ Hr0 Hr) as [c ->]; simpl.
  destruct (map_result_ok (fun arg => map_native_type arg E)
              (map normalize_type (parameters d))) as [args ->].
  - apply Forall_map; rewrite Forall_forall in *; intros t Ht.
    apply Hc; auto.
  - simpl; eexists; reflexivity.
Qed.

Lemma add_declarations_ok keep E (n : nat) ds :
  (Z.of_nat n <= int_max_str_digits)%Z ->
  Forall (types_within improper_digit 0) ds ->
  Forall (types_within isdigit n) ds ->
  forall F, exists F', add_declarations keep E F ds = Ok F'.
Proof.
  intros Hn H0; induction H0 as [|d ds Hd0 _ IH]; intros H F; simpl;
    [eexists; reflexivity|].
  inversion H as [|? ? Hd Hds]; subst.
  unfold add_declaration.
  destruct (negb (keep (name d))); simpl; [now apply IH|].
  destruct (mapped_signature_ok E n d Hn Hd0 Hd) as [s ->]; simpl.
  now apply IH.
Qed.

Lemma read_headers_ok keep files :
  Forall (fun source => convertible_digits source = true) files ->
  forall E F, exists F', read_headers keep files E F = Ok F'.
Proof.
  induction 1 as [|f files Hf _ IH]; intros E F; simpl;
    [eexists; reflexivity|].
  apply convertible_digits_count in Hf; destruct Hf as [H0 H1].
  destruct (add_declarations_ok keep
              (E ++ collect_enum_types (strip_comments f))
              (count_of isdigit f)
              (parse_functions (strip_comments f)) H1) with (F := F)
    as [F' ->].
  - apply parse_functions_count; try reflexivity.
    pose proof (strip_comments_count improper_digit eq_refl f); lia.
  - apply parse_functions_count; try reflexivity.
    apply (strip_comments_count isdigit eq_refl f).
  - simpl; apply IH.
Qed.

(** X14.  A run over headers whose digit characters [int()] converts
    does not raise, it returns a registry: it is enough that in each
    header every character [str.isdigit] accepts is one of [0] to [9]
    and that the header has at most 4300 of them, since no type string
    has more digit characters than the header it is read from. *)
Theorem generate_returns_on_convertible_digits (include_files : list text) :
  Forall (fun source => convertible_digits source = true) include_files ->
  exists out, generate include_files = Ok out.
Proof.
  intros H; unfold generate, generate_with.
  destruct (read_headers_ok in_namespace include_files H) with (E := @nil text)
    (F := @nil (text * Signature)) as [F ->].
  simpl; eexists; reflexivity.
Qed.

Lemma generate_returns_on_convertible_digits_witness :
  exists out, generate [defines_color; uses_color; first_header] = Ok out.
Proof.
  apply generate_returns_on_convertible_digits; repeat constructor.
Defined.

(** *** Where the entries come from *)

Lemma extracted_In (files : list text) : forall E0 E d,
  In (E, d) (extracted files E0) ->
  exists source, In source files
                 /\ In d (parse_functions (strip_comments source)).
Proof.
  induction files as [|f files IH]; intros E0 E d; simpl; [tauto|].
  rewrite in_app_iff, in_map_iff; intros [(d' & [= _ <-] & Hd)|H].
  - exists f; auto.
  - destruct (IH _ _ _ H) as (source & Hs & Hd); exists source; auto.
Qed.

Lemma generate_entries (include_files : list text)
  (out : list (text * Signature)) :
  generate include_files = Ok out ->
  forall n s, In (n, s) out -> entry_of include_files n s.
Proof.
  unfold generate, generate_with; intros H n s Hin.
  destruct (read_headers in_namespace include_files [] []) as [F|] eqn:E;
    simpl in H; [|discriminate].
  injection H as <-.
  assert (H0 : holds_first [] []) by (intros m; reflexivity).
  destruct (read_headers_first _ _ _ _ _ E H0 (NoDup_nil _)) as [Hf _].
  simpl in Hf; specialize (Hf n).
  apply emitted_In in Hin.
  destruct (first_occurrence n (extracted include_files []))
    as [[E0 d]|] eqn:Ef; [|congruence].
  destruct Hf as (s0 & Hs0 & Hl).
  assert (s0 = s) by congruence; subst s0.
  unfold first_occurrence in Ef; apply find_some in Ef.
  destruct Ef as [Hin' Hp]; simpl in Hp.
  apply andb_true_iff in Hp; destruct Hp as [Hk Hn].
  apply text_eqb_eq in Hn.
  destruct (extracted_In _ _ _ _ Hin') as (source & Hs & Hd).
  exists E0, d, source; auto.
Qed.

Lemma parsed_name_identifier (declaration : text) (fd : FunctionDecl) :
  parse_function_declaration declaration = Some fd ->
  identifier (name fd) = true.
Proof.
  unfold parse_function_declaration.
  destruct (negb (contains "(" (declaration_text declaration))
            || negb (contains ")" (declaration_text declaration)));
    [discriminate|].
  destruct (split_first "(" (declaration_text declaration)) as [bp tail].
  pose proof (search_name (strip bp) (strip_last bp)) as Hn.
  destruct (search NAME_RE (strip bp)) as [[n id]|]; [|discriminate].
  destruct (is_empty (strip (firstn n (strip bp)))); [discriminate|].
  intros [= <-]; simpl.
  destruct Hn as [(_ & Hi & _) _]; exact Hi.
Qed.

Lemma parse_functions_identifier (source : text) (d : FunctionDecl) :
  In d (parse_functions source) -> identifier (name d) = true.
Proof.
  unfold parse_functions; rewrite in_flat_map.
  intros (decl & _ & H).
  destruct (parse_function_declaration decl) as [fd|] eqn:E; [|destruct H].
  destruct H as [<-|[]]; eapply parsed_name_identifier; eauto.
Qed.

(** X15.  In the registry a run returns, every key is an identifier that
    starts with [mono], and every entry carries its key as its name. *)
Theorem registry_names (include_files : list text)
  (out : list (text * Signature)) :
  generate include_files = Ok out ->
  Forall (fun entry =>
            identifier (fst entry) = true
            /\ startswith (txt "mono") (fst entry) = true
            /\ sig_name (snd entry) = fst entry) out.
Proof.
  intros H; apply Forall_forall; intros [n s] Hin; simpl.
  destruct (generate_entries _ _ H _ _ Hin)
    as (E & d & source & _ & Hd & Hk & -> & Hm).
  split; [eapply parse_functions_identifier; eauto|].
  split; [rewrite in_namespace_mono in Hk; exact Hk|].
  unfold mapped_signature in Hm.
  destruct (map_native_type _ E); simpl in Hm; [|discriminate].
  destruct (map_result _ _); simpl in Hm; [|discriminate].
  injection Hm as <-; reflexivity.
Qed.

Lemma registry_names_witness :
  Forall (fun entry =>
            identifier (fst entry) = true
            /\ startswith (txt "mono") (fst entry) = true
            /\ sig_name (snd entry) = fst entry)
    [signature "mono_a" "int" ["int"]%string;
     signature "mono_b" "uint64" []%string;
     signature "mono_c" "void" []%string].
Proof.
  apply (registry_names [first_header; second_header]).
  vm_compute; reflexivity.
Defined.

(** X16.  In the registry a run returns, every return category and every
    argument category is one of the fourteen. *)
Theorem registry_categories (include_files : list text)
  (out : list (text * Signature)) :
  generate include_files = Ok out ->
  Forall (fun entry =>
            In (retType (snd entry)) categories
            /\ Forall (fun c => In c categories) (argTypes (snd entry))) out.
Proof.
  intros H; apply Forall_forall; intros [n s] Hin; simpl.
  destruct (generate_entries _ _ H _ _ Hin)
    as (E & d & source & _ & _ & _ & _ & Hm).
  unfold mapped_signature in Hm.
  destruct (map_native_type _ E) as [c|] eqn:Ec; simpl in Hm; [|discriminate].
  destruct (map_result _ _) as [args|] eqn:Ea; simpl in Hm; [|discriminate].
  injection Hm as <-; simpl; split.
  - eapply returned_category; exact Ec.
  - eapply map_result_Forall; [|exact Ea].
    intros a b; apply returned_category.
Qed.

Lemma registry_categories_witness :
  Forall (fun entry =>
            In (retType (snd entry)) categories
            /\ Forall (fun c => In c categories) (argTypes (snd entry)))
    [signature "mono_foo" "int" ["pointer"; "pointer"]%string].
Proof.
  apply (registry_categories [minimal_header]).
  vm_compute; reflexivity.
Defined.

(** *** More headers *)

Lemma read_headers_app keep (files more : list text) : forall E F,
  read_headers keep (files ++ more) E F
  = F' <- read_headers keep files E F ;;
    read_headers keep more (enums_after files E) F'.
Proof.
  induction files as [|f files IH]; intros E F; simpl; [reflexivity|].
  destruct (add_declarations keep _ F _); simpl; [apply IH | reflexivity].
Qed.

(** X17.  Headers read after the others add entries and change none: if
    the run over [include_files ++ more] returns, so does the run over
    [include_files], and every entry of the shorter run is an entry of
    the longer one. *)
Theorem later_headers_change_no_entry (include_files more : list text)
  (out' : list (text * Signature)) :
  generate (include_files ++ more) = Ok out' ->
  exists out,
    generate include_files = Ok out
    /\ forall n s, In (n, s) out -> In (n, s) out'.
Proof.
  unfold generate, generate_with; rewrite read_headers_app.
  destruct (read_headers in_namespace include_files [] []) as [F|] eqn:E;
    simpl; [|discriminate].
  destruct (read_headers in_namespace more _ F) as [F'|] eqn:E';
    simpl; [|discriminate].
  intros [= <-]; eexists; split; [reflexivity|].
  intros n s; rewrite !emitted_In; intros Hl.
  assert (H0 : holds_first [] []) by (intros m; reflexivity).
  destruct (read_headers_first _ _ _ _ _ E H0 (NoDup_nil _)) as [Hf Hnd].
  destruct (read_headers_first _ _ _ _ _ E' Hf Hnd) as [Hf' _].
  simpl in Hf, Hf'; specialize (Hf n); specialize (Hf' n).
  rewrite first_occurrence_app in Hf'.
  destruct (first_occurrence n (extracted include_files []))
    as [[E0 d]|]; [|congruence].
  destruct Hf as (s0 & Hs0 & Hl0), Hf' as (s1 & Hs1 & Hl1); congruence.
Qed.

Lemma later_headers_change_no_entry_witness :
  exists out,
    generate [first_header] = Ok out
    /\ forall n s, In (n, s) out ->
         In (n, s) [signature "mono_a" "int" ["int"]%string;
                    signature "mono_b" "uint64" []%string;
                    signature "mono_c" "void" []%string].
Proof.
  apply (later_headers_change_no_entry [first_header] [second_header]).
  vm_compute; reflexivity.
Defined.

(** ** The enum names *)

Lemma scan_hits r (G : option text -> Prop) :
  (forall prev s pv t g, Matches r prev s None pv t g -> G g) ->
  forall s skip prev, Forall (hit_with G) (scan r skip prev s).
Proof.
  intros HG.
  assert (Hm : forall adv prev s m,
             match_at r adv prev s = Some m -> G (group1 m)).
  { intros adv prev s m H.
    destruct (match_at_sound _ _ _ _ _ H) as (mt & _ & HM & _); eauto. }
  induction s as [|c s IH]; intros skip prev.
  - destruct skip; [|constructor].
    rewrite scan_zero; cbv zeta.
    destruct (match_at r false prev []) as [m|] eqn:E; [|constructor].
    constructor; [simpl; eauto|].
    destruct (width [] m); [|constructor].
    destruct (match_at r true prev []) as [m'|] eqn:E'; [|constructor].
    constructor; [simpl; eauto | constructor].
  - destruct skip; [|cbn [scan]; apply IH].
    rewrite scan_zero; cbv zeta.
    destruct (match_at r false prev (c :: s)) as [m|] eqn:E;
      [|constructor; [exact I | apply IH]].
    constructor; [simpl; eauto|].
    destruct (width (c :: s) m); [|apply IH].
    destruct (match_at r true prev (c :: s)) as [m'|] eqn:E';
      [|constructor; [exact I | apply IH]].
    constructor; [simpl; eauto | apply IH].
Qed.

Ltac invert_cats :=
  repeat match goal with
         | H : Matches (Cat _ _) _ _ _ _ _ _ |- _ => invert_match H
         end.

Ltac invert_atoms :=
  repeat match goal with
         | H : Matches (Str _) _ _ _ _ _ _ |- _ => invert_match H
         | H : Matches (Rep _ _ _) _ _ _ _ _ _ |- _ => invert_match H
         | H : Matches (Cls _) _ _ _ _ _ _ |- _ => invert_match H
         | H : Matches Wordb _ _ _ _ _ _ |- _ => invert_match H
         | H : Matches Eol _ _ _ _ _ _ |- _ => invert_match H
         | H : Matches Eos _ _ _ _ _ _ |- _ => invert_match H
         | H : Matches Bol _ _ _ _ _ _ |- _ => invert_match H
         end.

Lemma firstn_run (run t : text) :
  firstn (length (run ++ t) - length t) (run ++ t) = run.
Proof.
  rewrite length_app, Nat.add_sub, firstn_app, firstn_all, Nat.sub_diag.
  simpl; apply app_nil_r.
Qed.

Lemma enum_matches prev s g pv t g' :
  Matches ENUM_PATTERN prev s g pv t g' ->
  exists nm, g' = Some nm /\ word nm.
Proof.
  unfold ENUM_PATTERN, lit, star, plus, lazy_star; intros H.
  invert_cats.
  match goal with
  | H : Matches (Grp _) _ _ _ _ _ _ |- _ => invert_match H
  end.
  invert_atoms.
  match goal with
  | Hr : forallb isword ?run = true |- _ =>
      exists run; split; [f_equal; apply firstn_run | split; auto]
  end.
Qed.

(** X18.  Every enum type name [collect_enum_types] collects is a
    non-empty run of word characters. *)
Theorem collected_enum_names_are_words (source : text) :
  Forall word (collect_enum_types source).
Proof.
  unfold collect_enum_types, finditer.
  pose proof (scan_hits ENUM_PATTERN
                (fun g => exists nm, g = Some nm /\ word nm)) as H.
  specialize (H (fun prev s pv t g Hm => enum_matches _ _ _ _ _ _ Hm)
                source 0 None).
  induction H as [|p l Hp _ IH]; simpl; [constructor|].
  destruct p as [c|g]; simpl in *; [exact IH|].
  destruct Hp as (nm & -> & Hw); constructor; assumption.
Qed.

(** ** Normalised types *)

Lemma Scans_keeps r (c : ascii) prev s pieces :
  Scans r prev s pieces ->
  (forall prev mt t g,
     Matches r prev (mt ++ t) None (advance prev mt) t g -> ~ In c mt) ->
  In c s -> In (Kept c) pieces.
Proof.
  intros H Hm; induction H as [prev|prev c0 s out Hn _ IH
                               |prev mt t g out Hne HM _ IH]; intros Hin.
  - destruct Hin.
  - destruct Hin as [->|Hin]; [left; reflexivity | right; auto].
  - apply in_app_iff in Hin; destruct Hin as [Hin|Hin].
    + exfalso; exact (Hm _ _ _ _ HM Hin).
    + right; auto.
Qed.

Lemma Scans_hits r (c : ascii) prev s pieces :
  Scans r prev s pieces ->
  (forall prev t, exists pv t' g, Matches r prev (c :: t) None pv t' g) ->
  In c s -> exists g, In (Hit g) pieces.
Proof.
  intros H Hm; induction H as [prev|prev c0 s out Hn _ IH
                               |prev mt t g out Hne HM _ IH]; intros Hin.
  - destruct Hin.
  - destruct Hin as [->|Hin].
    + destruct (Hm prev s) as (pv & t' & g & HM); exfalso; eapply Hn; eauto.
    + destruct (IH Hin) as [g Hg]; exists g; right; exact Hg.
  - exists g; left; reflexivity.
Qed.

Lemma expand_kept_in repl (c : ascii) pieces :
  In (Kept c) pieces -> In c (expand repl pieces).
Proof.
  intros H; unfold expand; apply in_flat_map.
  exists (Kept c); split; [exact H | left; reflexivity].
Qed.

Lemma expand_hit_in repl g (x : ascii) pieces :
  In (Hit g) pieces -> In x (repl g) -> In x (expand repl pieces).
Proof.
  intros H Hx; unfold expand; apply in_flat_map.
  exists (Hit g); split; assumption.
Qed.

Lemma lstrip_keeps (c : ascii) (s : text) :
  isspace c = false -> In c s -> In c (lstrip s).
Proof.
  intros Hc; induction s as [|d s IH]; simpl; [auto|].
  destruct (isspace d) eqn:E; [|auto].
  intros [->|H]; [congruence | auto].
Qed.

Lemma strip_keeps (c : ascii) (s : text) :
  isspace c = false -> In c s -> In c (strip s).
Proof.
  intros Hc H; unfold strip, rstrip.
  apply in_rev; rewrite rev_involutive.
  apply lstrip_keeps; [exact Hc|].
  apply -> in_rev; apply lstrip_keeps; assumption.
Qed.

Lemma spaces_no_star (run : text) :
  forallb isspace run = true -> ~ In "*"%char run.
Proof.
  rewrite forallb_forall; intros H Hin; apply H in Hin; discriminate.
Qed.

Lemma qualifier_matches prev s g pv t g' :
  Matches QUALIFIER_RE prev s g pv t g' ->
  exists w, s = w ++ t
            /\ In w [txt "const"; txt "volatile"; txt "restrict"].
Proof.
  unfold QUALIFIER_RE, lit; intros H.
  invert_cats.
  match goal with
  | H : Matches (Grp _) _ _ _ _ _ _ |- _ => invert_match H
  end.
  repeat match goal with
         | H : Matches (Alt _ _) _ _ _ _ _ _ |- _ => invert_match H
         end;
    invert_atoms; eexists; (split; [reflexivity|]); simpl; auto.
Qed.

Lemma struct_enum_matches prev s g pv t g' :
  Matches STRUCT_ENUM_RE prev s g pv t g' ->
  exists w run, s = w ++ run ++ t
                /\ In w [txt "struct"; txt "enum"]
                /\ forallb isspace run = true.
Proof.
  unfold STRUCT_ENUM_RE, lit, star; intros H.
  invert_cats.
  match goal with
  | H : Matches (Grp _) _ _ _ _ _ _ |- _ => invert_match H
  end.
  repeat match goal with
         | H : Matches (Alt _ _) _ _ _ _ _ _ |- _ => invert_match H
         end;
    invert_atoms;
    match goal with
    | Hr : forallb isspace ?run = true |- _ =>
        eexists; exists run; (split; [reflexivity|]); simpl; auto
    end.
Qed.

Lemma whitespace_matches prev s g pv t g' :
  Matches WHITESPACE_RE prev s g pv t g' ->
  exists run, s = run ++ t /\ run <> [] /\ forallb isspace run = true.
Proof.
  unfold WHITESPACE_RE, plus; intros H; invert_match H.
  eexists; split; [reflexivity|]; auto.
Qed.

Lemma pointer_matches prev s g pv t g' :
  Matches POINTER_SPACING_RE prev s g pv t g' ->
  exists a b, s = a ++ "*"%char :: b ++ t.
Proof.
  unfold POINTER_SPACING_RE, lit, star; intros H.
  invert_cats; invert_atoms.
  eexists; eexists; reflexivity.
Qed.

Lemma pointer_matches_star prev (t : text) :
  Matches POINTER_SPACING_RE prev ("*"%char :: t) None (Some "*"%char) t None.
Proof.
  unfold POINTER_SPACING_RE, lit, star.
  eapply M_cat; [apply (M_rep false false isspace prev [] ("*"%char :: t));
                 [reflexivity | discriminate]|].
  eapply M_cat; [apply (M_str (txt "*") prev t)|].
  apply (M_rep false false isspace _ [] t); [reflexivity | discriminate].
Qed.

Lemma app_shorter (a t : text) : a <> [] -> length t < length (a ++ t).
Proof.
  intros H; rewrite length_app; destruct a; [congruence | simpl; lia].
Qed.

Lemma qualifier_never_empty : never_empty QUALIFIER_RE.
Proof.
  intros prev s g pv t g' H; apply qualifier_matches in H.
  destruct H as (w & -> & Hw); apply app_shorter.
  simpl in Hw; intuition (subst; discriminate).
Qed.

Lemma struct_enum_never_empty : never_empty STRUCT_ENUM_RE.
Proof.
  intros prev s g pv t g' H; apply struct_enum_matches in H.
  destruct H as (w & run & -> & Hw & _).
  rewrite app_assoc; apply app_shorter.
  simpl in Hw; intuition (subst; discriminate).
Qed.

Lemma whitespace_never_empty : never_empty WHITESPACE_RE.
Proof.
  intros prev s g pv t g' H; apply whitespace_matches in H.
  destruct H as (run & -> & Hne & _); now apply app_shorter.
Qed.

Lemma pointer_never_empty : never_empty POINTER_SPACING_RE.
Proof.
  intros prev s g pv t g' H; apply pointer_matches in H.
  destruct H as (a & b & ->).
  rewrite !length_app; simpl; rewrite length_app; lia.
Qed.

(** A substitution whose matches hold no star keeps the stars. *)
Lemma sub_keeps_star r repl (s : text) :
  never_empty r ->
  (forall prev mt t g,
     Matches r prev (mt ++ t) None (advance prev mt) t g ->
     ~ In "*"%char mt) ->
  In "*"%char s -> In "*"%char (sub r repl s).
Proof.
  intros Hne Hm Hin.
  destruct (sub_Scans r repl s Hne) as (pieces & Hs & ->).
  eapply expand_kept_in, Scans_keeps; eauto.
Qed.

Lemma qualifier_keeps_star repl (s : text) :
  In "*"%char s -> In "*"%char (sub QUALIFIER_RE repl s).
Proof.
  apply sub_keeps_star; [exact qualifier_never_empty|].
  intros prev mt t g H Hin; apply qualifier_matches in H.
  destruct H as (w & Hs & Hw); apply app_inv_tail in Hs; subst mt.
  simpl in Hw; destruct Hw as [<-|[<-|[<-|[]]]]; simpl in Hin;
    intuition discriminate.
Qed.

Lemma struct_enum_keeps_star repl (s : text) :
  In "*"%char s -> In "*"%char (sub STRUCT_ENUM_RE repl s).
Proof.
  apply sub_keeps_star; [exact struct_enum_never_empty|].
  intros prev mt t g H Hin; apply struct_enum_matches in H.
  destruct H as (w & run & Hs & Hw & Hr).
  rewrite app_assoc in Hs; apply app_inv_tail in Hs; subst mt.
  apply in_app_iff in Hin; destruct Hin as [Hin|Hin];
    [|exact (spaces_no_star _ Hr Hin)].
  simpl in Hw; destruct Hw as [<-|[<-|[]]]; simpl in Hin;
    intuition discriminate.
Qed.

Lemma whitespace_keeps_star repl (s : text) :
  In "*"%char s -> In "*"%char (sub WHITESPACE_RE repl s).
Proof.
  apply sub_keeps_star; [exact whitespace_never_empty|].
  intros prev mt t g H Hin; apply whitespace_matches in H.
  destruct H as (run & Hs & _ & Hr); apply app_inv_tail in Hs; subst mt.
  exact (spaces_no_star _ Hr Hin).
Qed.

Lemma pointer_spacing_keeps_star (s : text) :
  In "*"%char s ->
  In "*"%char (sub POINTER_SPACING_RE (const_repl "*") s).
Proof.
  intros Hin.
  destruct (sub_Scans POINTER_SPACING_RE (const_repl "*") s
              pointer_never_empty) as (pieces & Hs & ->).
  destruct (Scans_hits _ "*"%char _ _ _ Hs) as [g Hg]; [|exact Hin|].
  - intros prev t; do 3 eexists; apply pointer_matches_star.
  - eapply expand_hit_in; [exact Hg | left; reflexivity].
Qed.

Lemma normalize_type_keeps_star (type_name : text) :
  In "*"%char type_name -> In "*"%char (normalize_type type_name).
Proof.
  intros H; unfold normalize_type.
  apply strip_keeps; [reflexivity|].
  apply whitespace_keeps_star, pointer_spacing_keeps_star,
    struct_enum_keeps_star, qualifier_keeps_star.
  apply strip_keeps; [reflexivity | exact H].
Qed.

Lemma contains_In (c : ascii) (s : text) : contains c s = true <-> In c s.
Proof.
  unfold contains; rewrite existsb_exists; split.
  - intros (x & Hx & E); apply Ascii.eqb_eq in E; subst; exact Hx.
  - intros H; exists c; split; [exact H | apply Ascii.eqb_refl].
Qed.

(** X19.  A type with a star is a pointer: normalisation keeps the star,
    so whatever else the type string holds and whatever the enum set,
    its category is [pointer]. *)
Theorem starred_type_is_pointer (type_name : text) (enum_types : str_set) :
  contains "*" type_name = true ->
  map_native_type (normalize_type type_name) enum_types = Ok (txt "pointer").
Proof.
  intros H; apply contains_In, normalize_type_keeps_star in H.
  apply contains_In in H.
  unfold map_native_type.
  destruct (normalize_type type_name) as [|c n]; [discriminate|].
  cbn [is_empty]; rewrite H; reflexivity.
Qed.

Lemma starred_type_is_pointer_witness :
  map_native_type (normalize_type (txt "const struct MonoObject * volatile *"))
    [txt "MonoObject"] = Ok (txt "pointer").
Proof. apply starred_type_is_pointer; reflexivity. Defined.

(** ** White space *)

Lemma rep_greedy_total {R : Type} (p : ascii -> bool) (f : text -> R)
  (drop : text -> text) :
  (forall c s, drop (c :: s) = if p c then drop s else c :: s) ->
  drop [] = [] ->
  forall s prev,
    rep_greedy p (fun _ t => Some (f t)) prev s = Some (f (drop s)).
Proof.
  intros Hd Hn; induction s as [|c s IH]; intros prev; simpl.
  - now rewrite Hn.
  - rewrite Hd; destruct (p c); [rewrite IH|]; reflexivity.
Qed.

Lemma whitespace_match_at prev (s : text) :
  match_at WHITESPACE_RE false prev s
  = match s with
    | c :: s' =>
        if isspace c then Some {| group1 := None; rest := lstrip s' |}
        else None
    | [] => None
    end.
Proof.
  unfold match_at, WHITESPACE_RE, plus; cbn [mtch].
  destruct s as [|c s]; [reflexivity|].
  destruct (isspace c); [|reflexivity].
  unfold accept; cbn [andb].
  apply (rep_greedy_total isspace
           (fun t => {| group1 := None; rest := t |}) lstrip);
    reflexivity.
Qed.

Lemma lstrip_split (s : text) :
  exists run, s = run ++ lstrip s /\ forallb isspace run = true.
Proof.
  induction s as [|c s (run & Hs & Hr)]; [exists []; auto|].
  simpl; destruct (isspace c) eqn:E.
  - exists (c :: run); simpl; rewrite E; split; [congruence | exact Hr].
  - exists []; auto.
Qed.

Lemma lstrip_idem (s : text) : lstrip (lstrip s) = lstrip s.
Proof.
  induction s as [|c s IH]; simpl; [reflexivity|].
  destruct (isspace c) eqn:E; [exact IH | simpl; now rewrite E].
Qed.

Lemma whitespace_sub_Wsp (s : text) : forall prev,
  Wsp s (expand (const_repl " ") (scan WHITESPACE_RE 0 prev s)).
Proof.
  induction s as [s IH] using (induction_ltof1 _ (@length ascii)).
  unfold ltof in IH; intros prev.
  rewrite scan_zero, whitespace_match_at; cbv zeta.
  destruct s as [|c s]; [constructor|].
  destruct (isspace c) eqn:E.
  - destruct (lstrip_split s) as (run & Hs & Hr).
    unfold width; cbn [rest group1].
    replace (length (c :: s) - length (lstrip s)) with (S (length run))
      by (rewrite Hs at 1; cbn [length]; rewrite length_app; lia).
    rewrite Hs at 2; rewrite scan_skip.
    rewrite Hs at 1.
    apply (Wsp_hit c run (lstrip s)); auto using lstrip_idem.
    apply IH; rewrite Hs at 2; cbn [length]; rewrite length_app; lia.
  - cbn [expand flat_map app]; constructor; [exact E|].
    apply IH; simpl; lia.
Qed.

Lemma Wsp_only_spaces s out :
  Wsp s out -> forall c, In c out -> isspace c = true -> c = " "%char.
Proof.
  induction 1 as [|c0 s out Hc _ IH|c0 run t out Hc Hr Ht _ IH];
    intros c Hin Hs.
  - destruct Hin.
  - destruct Hin as [<-|Hin]; [congruence | auto].
  - destruct Hin as [<-|Hin]; [reflexivity | auto].
Qed.

Lemma Wsp_head_space s out b :
  Wsp s out -> out = " "%char :: b ->
  exists c s', s = c :: s' /\ isspace c = true.
Proof.
  intros H E; destruct H as [|c0 s out Hc _|c0 run t out Hc Hr Ht _];
    [discriminate | | eauto].
  injection E as -> _; discriminate.
Qed.

Lemma lstrip_fixed_head (t : text) (c : ascii) (t' : text) :
  lstrip t = t -> t = c :: t' -> isspace c = false.
Proof. intros H ->; eapply lstrip_head; exact H. Qed.

Lemma Wsp_no_double s out :
  Wsp s out -> forall a b, out <> a ++ " "%char :: " "%char :: b.
Proof.
  induction 1 as [|c0 s out Hc Hw IH|c0 run t out Hc Hr Ht Hw IH];
    intros a b E.
  - destruct a; discriminate.
  - destruct a as [|x a]; simpl in E.
    + injection E as -> _; discriminate.
    + injection E as _ E; exact (IH _ _ E).
  - destruct a as [|x a]; simpl in E.
    + injection E as E.
      destruct (Wsp_head_space _ _ _ Hw E) as (c & s' & Hs & Hsp).
      rewrite (lstrip_fixed_head _ _ _ Ht Hs) in Hsp; discriminate.
    + injection E as _ E; exact (IH _ _ E).
Qed.

Lemma strip_segment (s : text) : exists a b, s = a ++ strip s ++ b.
Proof.
  unfold strip, rstrip.
  destruct (lstrip_split s) as (a & Ha & _).
  destruct (lstrip_split (rev (lstrip s))) as (b & Hb & _).
  exists a, (rev b).
  rewrite <- rev_app_distr, <- Hb, rev_involutive; exact Ha.
Qed.

Lemma strip_head (s : text) (c : ascii) (t : text) :
  strip s = c :: t -> isspace c = false.
Proof.
  unfold strip, rstrip; intros H.
  destruct (lstrip_split (rev (lstrip s))) as (b & Hb & _).
  apply (f_equal (@rev ascii)) in Hb.
  rewrite rev_involutive, rev_app_distr, H in Hb.
  simpl in Hb; eapply lstrip_head; exact Hb.
Qed.

Lemma collapsed_spacing (s : text) :
  canonical_spacing (strip (sub WHITESPACE_RE (const_repl " ") s)).
Proof.
  unfold sub; fold (expand (const_repl " ") (scan WHITESPACE_RE 0 None s)).
  pose proof (whitespace_sub_Wsp s None) as Hw.
  set (o := expand (const_repl " ") (scan WHITESPACE_RE 0 None s)) in *.
  destruct (strip_segment o) as (a & b & Ho).
  split; [|split; [|split]].
  - intros c Hin; eapply Wsp_only_spaces; [exact Hw|].
    rewrite Ho, !in_app_iff; auto.
  - intros x y E; apply (Wsp_no_double _ _ Hw (a ++ x) (y ++ b)).
    rewrite Ho at 1; rewrite E, <- !app_assoc; reflexivity.
  - intros y E; apply strip_head in E; discriminate.
  - intros x E; apply strip_last in E; discriminate.
Qed.

(** X20.  The normalised type, the declaration text and the text of a
    parameter fragment have no white space but single spaces between
    other characters: no tab or newline, no two spaces in a row, no
    space at either end. *)
Theorem normalised_texts_are_single_spaced (s : text) :
  canonical_spacing (normalize_type s)
  /\ canonical_spacing (declaration_text s)
  /\ canonical_spacing (param_text s).
Proof.
  split; [|split]; apply collapsed_spacing.
Qed.

(** ** Plain type names *)

Lemma ident_char_facts (c : ascii) :
  ident_char c = true ->
  isword c = true /\ isspace c = false /\ c <> "*"%char.
Proof.
  destruct c as [[] [] [] [] [] [] [] []]; intros H;
    try discriminate H; repeat split; discriminate.
Qed.

Lemma identifier_chars (t : text) :
  identifier t = true -> forallb ident_char t = true.
Proof.
  destruct t as [|c t]; [discriminate|]; simpl.
  rewrite !andb_true_iff; intros [Hc Ht]; split; [|exact Ht].
  unfold ident_start, ident_char in *.
  rewrite !orb_true_iff in *; tauto.
Qed.

Lemma word_after_chars (s : text) :
  forallb ident_char s = true -> s <> [] -> word_after s = true.
Proof.
  destruct s as [|c s]; [congruence|]; simpl.
  rewrite andb_true_iff; intros [Hc _] _; now apply ident_char_facts.
Qed.

Lemma word_before_chars (l : text) : forall prev,
  forallb ident_char l = true -> l <> [] ->
  word_before (advance prev l) = true.
Proof.
  induction l as [|c l IH]; intros prev H Hne; [congruence|].
  simpl in H; apply andb_true_iff in H; destruct H as [Hc Hl].
  destruct l as [|d l]; [simpl; now apply ident_char_facts|].
  apply (IH (Some c)); [exact Hl | discriminate].
Qed.

Ltac word_bounds :=
  match goal with
  | H : xorb (word_before ?p) (word_after (?w ++ ?t)) = true,
    H0 : xorb (word_before (advance ?p ?w)) (word_after ?u) = true |- _ =>
      replace (word_after (w ++ t)) with true in H by reflexivity;
      replace (word_before (advance p w)) with true in H0 by reflexivity;
      rewrite xorb_true_r in H; apply negb_true_iff in H;
      rewrite xorb_true_l in H0; apply negb_true_iff in H0
  end.

Lemma qualifier_matches_bounded prev s g pv t g' :
  Matches QUALIFIER_RE prev s g pv t g' ->
  exists w, s = w ++ t
            /\ In w [txt "const"; txt "volatile"; txt "restrict"]
            /\ word_before prev = false /\ word_after t = false.
Proof.
  unfold QUALIFIER_RE, lit; intros H.
  invert_cats.
  match goal with
  | H : Matches (Grp _) _ _ _ _ _ _ |- _ => invert_match H
  end.
  repeat match goal with
         | H : Matches (Alt _ _) _ _ _ _ _ _ |- _ => invert_match H
         end;
    invert_atoms; word_bounds;
    eexists; (split; [reflexivity|]); simpl; auto 6.
Qed.

Lemma struct_enum_matches_bounded prev s g pv t g' :
  Matches STRUCT_ENUM_RE prev s g pv t g' ->
  exists w run, s = w ++ run ++ t
                /\ In w [txt "struct"; txt "enum"]
                /\ forallb isspace run = true
                /\ word_before prev = false
                /\ word_after (run ++ t) = false.
Proof.
  unfold STRUCT_ENUM_RE, lit, star; intros H.
  invert_cats.
  match goal with
  | H : Matches (Grp _) _ _ _ _ _ _ |- _ => invert_match H
  end.
  repeat match goal with
         | H : Matches (Alt _ _) _ _ _ _ _ _ |- _ => invert_match H
         end;
    invert_atoms; word_bounds;
    match goal with
    | Hr : forallb isspace ?run = true |- _ =>
        eexists; exists run; (split; [reflexivity|]); simpl; auto 6
    end.
Qed.

(** In a text of identifier characters a keyword pattern can only match
    the whole text. *)
Lemma word_text_match (t pre w rest : text) :
  forallb ident_char t = true ->
  t = pre ++ w ++ rest -> w <> [] ->
  word_before (advance None pre) = false -> word_after rest = false ->
  t = w.
Proof.
  intros Ht E Hw Hb Ha.
  rewrite E in Ht; rewrite !forallb_app, !andb_true_iff in Ht.
  destruct Ht as (Hp & _ & Hr).
  destruct pre as [|c pre];
    [|rewrite word_before_chars in Hb; [discriminate | exact Hp
                                                     | discriminate]].
  destruct rest as [|c rest];
    [|rewrite word_after_chars in Ha; [discriminate | exact Hr
                                                     | discriminate]].
  rewrite E; simpl; apply app_nil_r.
Qed.

Lemma sub_unmatched r repl (s : text) :
  (forall pre suf pv t g,
     s = pre ++ suf -> ~ Matches r (advance None pre) suf None pv t g) ->
  sub r repl s = s.
Proof.
  intros H; unfold sub; rewrite scan_no_match by exact H.
  apply expand_kept.
Qed.

Lemma strip_no_space (s : text) :
  forallb (fun c => negb (isspace c)) s = true -> strip s = s.
Proof.
  assert (Hl : forall x, forallb (fun c => negb (isspace c)) x = true ->
               lstrip x = x).
  { intros [|c x]; simpl; [reflexivity|].
    rewrite andb_true_iff; intros [Hc _].
    apply negb_true_iff in Hc; now rewrite Hc. }
  intros H; unfold strip, rstrip.
  rewrite (Hl s H), Hl, rev_involutive; [reflexivity|].
  rewrite forallb_forall in *; intros c Hc; apply H, in_rev, Hc.
Qed.

Lemma plain_name_unchanged (t : text) :
  identifier t = true -> ~ In t removed_keywords -> normalize_type t = t.
Proof.
  intros Hi Hk; pose proof (identifier_chars _ Hi) as Hc.
  assert (Hs : strip t = t).
  { apply strip_no_space; rewrite forallb_forall in *; intros c Hin.
    apply negb_true_iff, ident_char_facts, Hc, Hin. }
  unfold normalize_type; rewrite Hs.
  rewrite (sub_unmatched QUALIFIER_RE).
  2:{ intros pre suf pv u g E Hm; apply qualifier_matches_bounded in Hm.
      destruct Hm as (w & -> & Hw & Hb & Ha); apply Hk.
      rewrite (word_text_match t pre w u Hc E); auto;
        simpl in Hw; unfold removed_keywords; simpl;
        intuition (subst; try discriminate; auto 6). }
  rewrite (sub_unmatched STRUCT_ENUM_RE).
  2:{ intros pre suf pv u g E Hm; apply struct_enum_matches_bounded in Hm.
      destruct Hm as (w & run & -> & Hw & Hr & Hb & Ha); apply Hk.
      rewrite (word_text_match t pre w (run ++ u) Hc E); auto;
        simpl in Hw; unfold removed_keywords; simpl;
        intuition (subst; try discriminate; auto 6). }
  rewrite (sub_unmatched POINTER_SPACING_RE).
  2:{ intros pre suf pv u g E Hm; apply pointer_matches in Hm.
      destruct Hm as (a & b & ->).
      rewrite forallb_forall in Hc.
      apply (ident_char_facts "*"); [|reflexivity].
      apply Hc; rewrite E, !in_app_iff; right; right; left; reflexivity. }
  rewrite (sub_unmatched WHITESPACE_RE); [exact Hs|].
  intros pre suf pv u g E Hm; apply whitespace_matches in Hm.
  destruct Hm as (run & -> & Hne & Hr).
  destruct run as [|c run]; [congruence|].
  simpl in Hr; apply andb_true_iff in Hr; destruct Hr as [Hsp _].
  rewrite forallb_forall in Hc.
  assert (Hin : In c t) by (rewrite E, in_app_iff; right; left; reflexivity).
  apply Hc, ident_char_facts in Hin; destruct Hin as (_ & Hns & _).
  congruence.
Qed.

(** X21.  A type name that is an identifier other than [const],
    [volatile], [restrict], [struct] and [enum] is left as it is by
    [normalize_type]; so when it is in the enum set its normalised form
    classifies as [int]. *)
Theorem enum_name_is_int (type_name : text) (enum_types : str_set) :
  identifier type_name = true -> ~ In type_name removed_keywords ->
  normalize_type type_name = type_name
  /\ (mem type_name enum_types = true ->
      map_native_type (normalize_type type_name) enum_types = Ok (txt "int")).
Proof.
  intros Hi Hk; pose proof (plain_name_unchanged _ Hi Hk) as Hn.
  split; [exact Hn|]; intros He; rewrite Hn.
  pose proof (identifier_chars _ Hi) as Hc.
  unfold map_native_type.
  destruct type_name as [|c t] eqn:Et; [discriminate|]; rewrite <- Et in *.
  assert (Hstar : contains "*" type_name = false).
  { destruct (contains "*" type_name) eqn:E; [|reflexivity].
    apply contains_In in E; rewrite forallb_forall in Hc.
    apply Hc, ident_char_facts in E; destruct E as (_ & _ & E); congruence. }
  assert (Hbr : endswith (txt "]") type_name = false).
  { destruct (endswith (txt "]") type_name) eqn:E; [|reflexivity].
    apply endswith_app in E; destruct E as [x Hx].
    rewrite Hx, forallb_app in Hc; apply andb_true_iff in Hc.
    destruct Hc as [_ Hc]; discriminate. }
  rewrite Et at 1; cbn [is_empty]; rewrite Hstar, Hbr, He; reflexivity.
Qed.

Lemma enum_name_is_int_witness :
  normalize_type (txt "MonoImageOpenStatus") = txt "MonoImageOpenStatus"
  /\ (mem (txt "MonoImageOpenStatus") [txt "MonoImageOpenStatus"] = true ->
      map_native_type (normalize_type (txt "MonoImageOpenStatus"))
        [txt "MonoImageOpenStatus"] = Ok (txt "int")).
Proof.
  apply enum_name_is_int; [reflexivity|].
  unfold removed_keywords; simpl; intuition discriminate.
Defined.

(** ** What a parsed declaration holds *)

(** X22.  [parse_function_declaration] returns a declaration exactly
    when the declaration text has both parentheses and the trimmed text
    before the first opening one ends in an identifier with something
    other than white space before it; the name is then the longest such
    identifier, the return type is what precedes it, trimmed, and the
    parameters are those of the trimmed text between the first opening
    and the last closing parenthesis. *)
Theorem parse_declaration_fields (declaration : text) (fd : FunctionDecl) :
  let text := declaration_text declaration in
  let before := strip (fst (split_first "(" text)) in
  let inside := strip (rsplit_head ")" (snd (split_first "(" text))) in
  parse_function_declaration declaration = Some fd <->
    contains "(" text = true /\ contains ")" text = true
    /\ exists pre,
         trailing_identifier before pre (name fd)
         /\ strip pre <> []
         /\ return_type fd = strip pre
         /\ parameters fd = parse_parameters inside.
Proof.
  intros text before inside; unfold parse_function_declaration.
  fold text.
  destruct (contains "(" text) eqn:Eo; simpl;
    [|split; [discriminate | intros (H & _); discriminate]].
  destruct (contains ")" text) eqn:Ec; simpl;
    [|split; [discriminate | intros (_ & H & _); discriminate]].
  subst before inside.
  destruct (split_first "(" text) as [bp tail] eqn:Es; cbn [fst snd].
  pose proof (search_name (strip bp) (strip_last bp)) as Hn.
  destruct (search NAME_RE (strip bp)) as [[n id]|].
  - destruct Hn as [Ht _].
    destruct (is_empty (strip (firstn n (strip bp)))) eqn:Ee.
    + apply is_empty_nil in Ee; split; [discriminate|].
      intros (_ & _ & pre & Ht' & Hp & _).
      destruct (trailing_identifier_unique _ _ _ _ _ Ht Ht') as [<- _].
      congruence.
    + split.
      * intros [= <-]; simpl; repeat split.
        exists (firstn n (strip bp)); repeat split; try apply Ht.
        intros H; rewrite H in Ee; discriminate.
      * intros (_ & _ & pre & Ht' & _ & Hr & Hp).
        destruct (trailing_identifier_unique _ _ _ _ _ Ht Ht') as [Hpre Hid].
        destruct fd as [nm rt ps]; simpl in *; subst; reflexivity.
  - split; [discriminate|].
    intros (_ & _ & pre & (Hs & Hi & _) & _).
    rewrite (Hn _ _ Hs) in Hi; discriminate.
Qed.

Lemma parse_declaration_fields_witness :
  contains "(" (declaration_text (txt "const char * mono_name (void)")) = true.
Proof.
  apply (proj1 (parse_declaration_fields
                  (txt "const char * mono_name (void)")
                  {| name := txt "mono_name"; return_type := txt "const char*";
                     parameters := [] |})).
  vm_compute; reflexivity.
Defined.

(** ** The enum set an entry is mapped with *)

Lemma enums_after_grows (files : list text) : forall E e,
  In e E -> In e (enums_after files E).
Proof.
  induction files as [|f files IH]; intros E e H; simpl; [exact H|].
  apply IH, in_app_iff; left; exact H.
Qed.

Lemma enums_after_collects (files : list text) : forall E h e,
  In h files -> In e (collect_enum_types (strip_comments h)) ->
  In e (enums_after files E).
Proof.
  induction files as [|f files IH]; intros E h e Hh He; [destruct Hh|].
  simpl; destruct Hh as [->|Hh].
  - apply enums_after_grows, in_app_iff; right; exact He.
  - eapply IH; eauto.
Qed.

Lemma enums_after_app (files more : list text) (E : str_set) :
  enums_after (files ++ more) E = enums_after more (enums_after files E).
Proof.
  revert E; induction files as [|f files IH]; intros E; simpl; auto.
Qed.

Lemma extracted_position (files : list text) : forall E0 E d,
  In (E, d) (extracted files E0) ->
  exists earlier source later,
    files = earlier ++ source :: later
    /\ In d (parse_functions (strip_comments source))
    /\ E = enums_after (earlier ++ [source]) E0.
Proof.
  induction files as [|f files IH]; intros E0 E d; simpl; [tauto|].
  rewrite in_app_iff, in_map_iff; intros [(d' & [= <- <-] & Hd)|H].
  - exists [], f, files; auto.
  - destruct (IH _ _ _ H) as (earlier & source & later & -> & Hd & ->).
    exists (f :: earlier), source, later; auto.
Qed.

(** X23.  Every entry of the registry is mapped from a declaration of
    one of the headers, with an enum set that holds the enum names of
    that header and of every header read before it. *)
Theorem entries_see_earlier_enums (include_files : list text)
  (out : list (text * Signature)) (n : text) (s : Signature) :
  generate include_files = Ok out -> In (n, s) out ->
  exists earlier source later E d,
    include_files = earlier ++ source :: later
    /\ In d (parse_functions (strip_comments source))
    /\ n = name d
    /\ mapped_signature E d = Ok s
    /\ forall h e, In h (earlier ++ [source]) ->
                   In e (collect_enum_types (strip_comments h)) ->
                   mem e E = true.
Proof.
  unfold generate, generate_with; intros H Hin.
  destruct (read_headers in_namespace include_files [] []) as [F|] eqn:E;
    simpl in H; [|discriminate].
  injection H as <-.
  assert (H0 : holds_first [] []) by (intros m; reflexivity).
  destruct (read_headers_first _ _ _ _ _ E H0 (NoDup_nil _)) as [Hf _].
  simpl in Hf; specialize (Hf n).
  apply emitted_In in Hin.
  destruct (first_occurrence n (extracted include_files []))
    as [[E0 d]|] eqn:Ef; [|congruence].
  destruct Hf as (s0 & Hs0 & Hl).
  assert (s0 = s) by congruence; subst s0.
  unfold first_occurrence in Ef; apply find_some in Ef.
  destruct Ef as [Hin' Hp]; simpl in Hp.
  apply andb_true_iff in Hp; destruct Hp as [_ Hn].
  apply text_eqb_eq in Hn.
  destruct (extracted_position _ _ _ _ Hin')
    as (earlier & source & later & Hfiles & Hd & HE).
  exists earlier, source, later, E0, d; repeat split; auto.
  intros h e Hh He; apply mem_In; rewrite HE.
  eapply enums_after_collects; eauto.
Qed.

Lemma entries_see_earlier_enums_witness :
  exists earlier source later E d,
    [defines_color; uses_color] = earlier ++ source :: later
    /\ In d (parse_functions (strip_comments source))
    /\ txt "mono_get_color" = name d
    /\ mapped_signature E d
       = Ok (snd (signature "mono_get_color" "int" ["int"]%string))
    /\ forall h e, In h (earlier ++ [source]) ->
                   In e (collect_enum_types (strip_comments h)) ->
                   mem e E = true.
Proof.
  apply (entries_see_earlier_enums [defines_color; uses_color]
           [signature "mono_get_color" "int" ["int"]%string]).
  - vm_compute; reflexivity.
  - left; reflexivity.
Defined.
